(** * Math Fact Invaders: the game controller of [Javascript/script.js]

    A shallow embedding of the classes [Invader] and [Game] and the
    properties of the scoring state machine.

    Modelling conventions.
    - JavaScript numbers that only ever hold integers (invader values, the
      multiplier, the two counters, the countdown, millisecond clocks read
      from [Date.now()]) are [Z]; this is exact below 2^53.
    - JavaScript numbers that hold fractions (positions, speeds, frame
      deltas, results of [Math.random()]) are exact rationals [Q]: the
      rounding of binary64 arithmetic is not modelled.  Rounding is
      monotone and can carry a result onto a bound the exact value stays
      below (a speed of [110 + r * 70] with [r < 1] can round to 180), so
      upper bounds on such numbers are stated inclusive.
    - Strings are [string]; a character is one code unit below 256.
    - [Math.random()], [Date.now()] and [performance.now()] are inputs of
      the operation that calls them.
    - Of the DOM only what the controller reads back or what a property
      speaks about is kept: which screen is displayed (the three screens
      are switched together, so one value stands for their [display]
      styles), the game-over title, the alert banner, the answer display
      and whether the win celebration runs.  Score, status and multiplier
      displays mirror fields and are left out.  Timer and animation-frame
      handles are booleans (armed or not). *)

From Stdlib Require Import ZArith QArith Qround Ascii String Lia Lqa.
From stdpp Require Import base list.

Local Open Scope string_scope.
Local Open Scope list_scope.
Local Open Scope Z_scope.

(** ** JavaScript primitives used by the controller *)

Module JS.

(** [a >= b] and [a <= b] on strings: lexicographic on code units. *)
Definition str_ge (a b : string) : bool := String.leb b a.
Definition str_le (a b : string) : bool := String.leb a b.

(** [s.slice(0, -1)]: all but the last character. *)
Fixpoint slice_0_m1 (s : string) : string :=
  match s with
  | EmptyString => EmptyString
  | String c EmptyString => EmptyString
  | String c rest => String c (slice_0_m1 rest)
  end.

Definition is_digit (c : ascii) : bool :=
  let n := N_of_ascii c in ((48 <=? n) && (n <=? 57))%N.

Definition digit_val (c : ascii) : Z := Z.of_N (N_of_ascii c) - 48.

(** White space skipped by [parseInt]: TAB, LF, VT, FF, CR, SP, NBSP. *)
Definition is_space (c : ascii) : bool :=
  let n := N_of_ascii c in
  (((9 <=? n) && (n <=? 13)) || (n =? 32) || (n =? 160))%N.

Fixpoint skip_space (s : string) : string :=
  match s with
  | String c rest => if is_space c then skip_space rest else s
  | EmptyString => EmptyString
  end.

(** The longest prefix of decimal digits, read left to right with the
    value accumulated so far; [None] when there is no digit at all. *)
Fixpoint digits_from (acc : option Z) (s : string) : option Z :=
  match s with
  | String c rest =>
      if is_digit c
      then digits_from (Some (10 * default 0 acc + digit_val c)) rest
      else acc
  | EmptyString => acc
  end.

(** [parseInt(s, 10)]; [None] is [NaN]. *)
Definition parseInt (s : string) : option Z :=
  match skip_space s with
  | String "-" rest => Z.opp <$> digits_from None rest
  | String "+" rest => digits_from None rest
  | t => digits_from None t
  end.

(** [Math.floor] on a rational. *)
Definition floor (q : Q) : Z := Qfloor q.

(** [v || d] for a number [v]: zero is falsy. *)
Definition num_or (v d : Q) : Q := if Qeq_bool v 0 then d else v.

(** [Math.min], [Math.max]. *)
Definition min (a b : Q) : Q := if Qle_bool a b then a else b.
Definition max (a b : Q) : Q := if Qle_bool a b then b else a.

End JS.

(** ** class Invader *)

Record Invader := mkInvader {
  value : Z;
  x : Q;
  y : Q;
  speed : Q
}.

(** [new Invader(value, gameArea, speedSetting)]; [clientWidth] is the
    width of the game area, [rx] and [rs] the two results of
    [Math.random()] the constructor consumes, in that order. *)
Definition Invader_new (v : Z) (clientWidth : Z) (speedSetting : string)
    (rx rs : Q) : Invader :=
  let availableWidth := JS.max 0 (inject_Z clientWidth - 80) in
  {| value := v;
     y := (-50)%Q;
     x := (10 + rx * availableWidth)%Q;
     speed :=
       if String.eqb speedSetting "easy" then (30 + rs * 30)%Q
       else if String.eqb speedSetting "fast" then (110 + rs * 70)%Q
       else (60 + rs * 60)%Q |}.

(** [update(delta)], [delta] in seconds. *)
Definition update (inv : Invader) (delta : Q) : Invader :=
  {| value := value inv;
     x := x inv;
     y := (y inv + speed inv * JS.num_or delta 0)%Q;
     speed := speed inv |}.

(** [isOffScreen()], against the game area's [clientHeight]. *)
Definition isOffScreen (inv : Invader) (clientHeight : Z) : bool :=
  negb (Qle_bool (y inv) (inject_Z clientHeight)).

(** ** class Game: state *)

(** [this.settings], as [getSettings] builds it. *)
Record Settings := mkSettings {
  difficulty : string;
  mode : string;
  speedSetting : string;
  multiplierMode : string;
  fixedMultiplier : Z;
  limit : Z
}.

(** Which of the three screens has [display: block]. *)
Inductive Screen := SettingsScreen | GameScreen | GameOverScreen.

(** The fields of the controller.  [gameLoopId], [timerId] and [alertTimer]
    are [true] while a callback is armed; [lastFrameTime] is
    [_lastFrameTime] and [loopTicks] is [_loopTicks].  [gameAlert] is
    [Some (message, type)] while the banner carries the class [show]. *)
Record Game := mkGame {
  settings : Settings;
  scoreRight : Z;
  scoreWrong : Z;
  multiplier : Z;
  invaders : list Invader;
  gameLoopId : bool;
  timerId : bool;
  timeLeft : Z;
  spawnInterval : Z;
  lastSpawnTime : Z;
  alertTimer : bool;
  currentAnswer : string;
  lastFrameTime : option Q;
  loopTicks : Z;
  screen : Screen;
  gameOverTitle : string;
  gameAlert : option (string * string);
  answerDisplay : string;
  winCelebration : bool
}.

(** Field assignments, [this.f = v]. *)
Definition set_settings (v : Settings) (g : Game) : Game :=
  mkGame v (scoreRight g) (scoreWrong g) (multiplier g) (invaders g)
    (gameLoopId g) (timerId g) (timeLeft g) (spawnInterval g) (lastSpawnTime
    g) (alertTimer g) (currentAnswer g) (lastFrameTime g) (loopTicks g)
    (screen g) (gameOverTitle g) (gameAlert g) (answerDisplay g)
    (winCelebration g).

Definition set_scoreRight (v : Z) (g : Game) : Game :=
  mkGame (settings g) v (scoreWrong g) (multiplier g) (invaders g)
    (gameLoopId g) (timerId g) (timeLeft g) (spawnInterval g) (lastSpawnTime
    g) (alertTimer g) (currentAnswer g) (lastFrameTime g) (loopTicks g)
    (screen g) (gameOverTitle g) (gameAlert g) (answerDisplay g)
    (winCelebration g).

Definition set_scoreWrong (v : Z) (g : Game) : Game :=
  mkGame (settings g) (scoreRight g) v (multiplier g) (invaders g)
    (gameLoopId g) (timerId g) (timeLeft g) (spawnInterval g) (lastSpawnTime
    g) (alertTimer g) (currentAnswer g) (lastFrameTime g) (loopTicks g)
    (screen g) (gameOverTitle g) (gameAlert g) (answerDisplay g)
    (winCelebration g).

Definition set_multiplier (v : Z) (g : Game) : Game :=
  mkGame (settings g) (scoreRight g) (scoreWrong g) v (invaders g)
    (gameLoopId g) (timerId g) (timeLeft g) (spawnInterval g) (lastSpawnTime
    g) (alertTimer g) (currentAnswer g) (lastFrameTime g) (loopTicks g)
    (screen g) (gameOverTitle g) (gameAlert g) (answerDisplay g)
    (winCelebration g).

Definition set_invaders (v : list Invader) (g : Game) : Game :=
  mkGame (settings g) (scoreRight g) (scoreWrong g) (multiplier g) v
    (gameLoopId g) (timerId g) (timeLeft g) (spawnInterval g) (lastSpawnTime
    g) (alertTimer g) (currentAnswer g) (lastFrameTime g) (loopTicks g)
    (screen g) (gameOverTitle g) (gameAlert g) (answerDisplay g)
    (winCelebration g).

Definition set_gameLoopId (v : bool) (g : Game) : Game :=
  mkGame (settings g) (scoreRight g) (scoreWrong g) (multiplier g) (invaders
    g) v (timerId g) (timeLeft g) (spawnInterval g) (lastSpawnTime g)
    (alertTimer g) (currentAnswer g) (lastFrameTime g) (loopTicks g) (screen
    g) (gameOverTitle g) (gameAlert g) (answerDisplay g) (winCelebration g).

Definition set_timerId (v : bool) (g : Game) : Game :=
  mkGame (settings g) (scoreRight g) (scoreWrong g) (multiplier g) (invaders
    g) (gameLoopId g) v (timeLeft g) (spawnInterval g) (lastSpawnTime g)
    (alertTimer g) (currentAnswer g) (lastFrameTime g) (loopTicks g) (screen
    g) (gameOverTitle g) (gameAlert g) (answerDisplay g) (winCelebration g).

Definition set_timeLeft (v : Z) (g : Game) : Game :=
  mkGame (settings g) (scoreRight g) (scoreWrong g) (multiplier g) (invaders
    g) (gameLoopId g) (timerId g) v (spawnInterval g) (lastSpawnTime g)
    (alertTimer g) (currentAnswer g) (lastFrameTime g) (loopTicks g) (screen
    g) (gameOverTitle g) (gameAlert g) (answerDisplay g) (winCelebration g).

Definition set_spawnInterval (v : Z) (g : Game) : Game :=
  mkGame (settings g) (scoreRight g) (scoreWrong g) (multiplier g) (invaders
    g) (gameLoopId g) (timerId g) (timeLeft g) v (lastSpawnTime g)
    (alertTimer g) (currentAnswer g) (lastFrameTime g) (loopTicks g) (screen
    g) (gameOverTitle g) (gameAlert g) (answerDisplay g) (winCelebration g).

Definition set_lastSpawnTime (v : Z) (g : Game) : Game :=
  mkGame (settings g) (scoreRight g) (scoreWrong g) (multiplier g) (invaders
    g) (gameLoopId g) (timerId g) (timeLeft g) (spawnInterval g) v
    (alertTimer g) (currentAnswer g) (lastFrameTime g) (loopTicks g) (screen
    g) (gameOverTitle g) (gameAlert g) (answerDisplay g) (winCelebration g).

Definition set_alertTimer (v : bool) (g : Game) : Game :=
  mkGame (settings g) (scoreRight g) (scoreWrong g) (multiplier g) (invaders
    g) (gameLoopId g) (timerId g) (timeLeft g) (spawnInterval g)
    (lastSpawnTime g) v (currentAnswer g) (lastFrameTime g) (loopTicks g)
    (screen g) (gameOverTitle g) (gameAlert g) (answerDisplay g)
    (winCelebration g).

Definition set_currentAnswer (v : string) (g : Game) : Game :=
  mkGame (settings g) (scoreRight g) (scoreWrong g) (multiplier g) (invaders
    g) (gameLoopId g) (timerId g) (timeLeft g) (spawnInterval g)
    (lastSpawnTime g) (alertTimer g) v (lastFrameTime g) (loopTicks g)
    (screen g) (gameOverTitle g) (gameAlert g) (answerDisplay g)
    (winCelebration g).

Definition set_lastFrameTime (v : option Q) (g : Game) : Game :=
  mkGame (settings g) (scoreRight g) (scoreWrong g) (multiplier g) (invaders
    g) (gameLoopId g) (timerId g) (timeLeft g) (spawnInterval g)
    (lastSpawnTime g) (alertTimer g) (currentAnswer g) v (loopTicks g)
    (screen g) (gameOverTitle g) (gameAlert g) (answerDisplay g)
    (winCelebration g).

Definition set_loopTicks (v : Z) (g : Game) : Game :=
  mkGame (settings g) (scoreRight g) (scoreWrong g) (multiplier g) (invaders
    g) (gameLoopId g) (timerId g) (timeLeft g) (spawnInterval g)
    (lastSpawnTime g) (alertTimer g) (currentAnswer g) (lastFrameTime g) v
    (screen g) (gameOverTitle g) (gameAlert g) (answerDisplay g)
    (winCelebration g).

Definition set_screen (v : Screen) (g : Game) : Game :=
  mkGame (settings g) (scoreRight g) (scoreWrong g) (multiplier g) (invaders
    g) (gameLoopId g) (timerId g) (timeLeft g) (spawnInterval g)
    (lastSpawnTime g) (alertTimer g) (currentAnswer g) (lastFrameTime g)
    (loopTicks g) v (gameOverTitle g) (gameAlert g) (answerDisplay g)
    (winCelebration g).

Definition set_gameOverTitle (v : string) (g : Game) : Game :=
  mkGame (settings g) (scoreRight g) (scoreWrong g) (multiplier g) (invaders
    g) (gameLoopId g) (timerId g) (timeLeft g) (spawnInterval g)
    (lastSpawnTime g) (alertTimer g) (currentAnswer g) (lastFrameTime g)
    (loopTicks g) (screen g) v (gameAlert g) (answerDisplay g)
    (winCelebration g).

Definition set_gameAlert (v : option (string * string)) (g : Game) : Game :=
  mkGame (settings g) (scoreRight g) (scoreWrong g) (multiplier g) (invaders
    g) (gameLoopId g) (timerId g) (timeLeft g) (spawnInterval g)
    (lastSpawnTime g) (alertTimer g) (currentAnswer g) (lastFrameTime g)
    (loopTicks g) (screen g) (gameOverTitle g) v (answerDisplay g)
    (winCelebration g).

Definition set_answerDisplay (v : string) (g : Game) : Game :=
  mkGame (settings g) (scoreRight g) (scoreWrong g) (multiplier g) (invaders
    g) (gameLoopId g) (timerId g) (timeLeft g) (spawnInterval g)
    (lastSpawnTime g) (alertTimer g) (currentAnswer g) (lastFrameTime g)
    (loopTicks g) (screen g) (gameOverTitle g) (gameAlert g) v
    (winCelebration g).

Definition set_winCelebration (v : bool) (g : Game) : Game :=
  mkGame (settings g) (scoreRight g) (scoreWrong g) (multiplier g) (invaders
    g) (gameLoopId g) (timerId g) (timeLeft g) (spawnInterval g)
    (lastSpawnTime g) (alertTimer g) (currentAnswer g) (lastFrameTime g)
    (loopTicks g) (screen g) (gameOverTitle g) (gameAlert g) (answerDisplay
    g) v.

(** [g |> set_f v |> set_h w]: assignments in program order. *)
Notation "g |> f" := (f g) (at level 45, left associativity, only parsing).

(** The state the constructor leaves; [this.settings = {}] has no field
    set, which no test of the controller tells from empty strings. *)
Definition Game_new : Game :=
  {| settings := mkSettings "" "" "" "" 0 0;
     scoreRight := 0; scoreWrong := 0; multiplier := 0; invaders := [];
     gameLoopId := false; timerId := false; timeLeft := 0;
     spawnInterval := 2500; lastSpawnTime := 0; alertTimer := false;
     currentAnswer := ""; lastFrameTime := None; loopTicks := 0;
     screen := SettingsScreen; gameOverTitle := ""; gameAlert := None;
     answerDisplay := ""; winCelebration := false |}.

(** ** class Game: operations *)

(** The settings form as [getSettings] reads it: the value of the checked
    radio button of each group ([None] when none is checked) and the text
    of each numeric input ([None] when the element is absent). *)
Record Form := mkForm {
  form_difficulty : option string;
  form_mode : option string;
  form_speed : option string;
  form_multiplier_mode : option string;
  form_time_limit : option string;
  form_score_limit : option string;
  form_fixed_multiplier : option string
}.

(** [el?.value || d]: the empty string is falsy. *)
Definition value_or (v : option string) (d : string) : string :=
  match v with
  | Some s => if String.eqb s "" then d else s
  | None => d
  end.

(** [isNaN(n) || n <= 0] then the default: the clamp of the two limits. *)
Definition positive_or (n : option Z) (d : Z) : Z :=
  match n with
  | Some k => if k <=? 0 then d else k
  | None => d
  end.

(** The two clamps of the fixed multiplier. *)
Definition clampMultiplier (n : option Z) : Z :=
  let m := match n with
           | Some k => if k <? 1 then 1 else k
           | None => 1
           end in
  if 12 <? m then 12 else m.

Definition timeLimit_of (f : Form) : Z :=
  positive_or (JS.parseInt (value_or (form_time_limit f) "60")) 60.

Definition scoreLimit_of (f : Form) : Z :=
  positive_or (JS.parseInt (value_or (form_score_limit f) "20")) 20.

Definition fixedMultiplier_of (f : Form) : Z :=
  clampMultiplier (JS.parseInt (value_or (form_fixed_multiplier f) "7")).

(** [getSettings()].  Writing the clamped numbers back into the form is
    not modelled. *)
Definition getSettings (f : Form) (g : Game) : Game :=
  let difficulty := default "single" (form_difficulty f) in
  let mode := default "time" (form_mode f) in
  let speed := default "intermediate" (form_speed f) in
  let multiplierMode := default "random" (form_multiplier_mode f) in
  let timeLimit := timeLimit_of f in
  let scoreLimit := scoreLimit_of f in
  let fixedMultiplier := fixedMultiplier_of f in
  g |> set_settings
         {| difficulty := difficulty; mode := mode; speedSetting := speed;
            multiplierMode := multiplierMode;
            fixedMultiplier := fixedMultiplier;
            limit := if String.eqb mode "time" then timeLimit
                     else scoreLimit |}.

(** [stopWinCelebration()] and [startWinCelebration()], as far as the
    state records them. *)
Definition stopWinCelebration (g : Game) : Game :=
  g |> set_winCelebration false.

Definition startWinCelebration (g : Game) : Game :=
  g |> stopWinCelebration |> set_winCelebration true.

(** [cleanup()] *)
Definition cleanup (g : Game) : Game :=
  g |> set_timerId false |> set_gameLoopId false |> set_alertTimer false
    |> set_gameAlert None
    |> stopWinCelebration
    |> set_invaders [].

(** [showSettings()] *)
Definition showSettings (g : Game) : Game :=
  g |> set_screen SettingsScreen |> cleanup.

(** [Math.floor(Math.random() * n) + 1] *)
Definition random_1_to (n : Z) (r : Q) : Z :=
  JS.floor (r * inject_Z n) + 1.

(** [setMultiplier()]; [r] is the result of [Math.random()], consumed only
    when the mode is not ['fixed']. *)
Definition setMultiplier (r : Q) (g : Game) : Game :=
  if String.eqb (multiplierMode (settings g)) "fixed"
  then g |> set_multiplier (fixedMultiplier (settings g))
  else g |> set_multiplier
              (if String.eqb (difficulty (settings g)) "single"
               then random_1_to 9 r else random_1_to 12 r).

(** What one frame reads from its environment: the two readings of
    [performance.now()] ([perfInit] for the initialisation of
    [_lastFrameTime], [perfNow] for [now]), [Date.now()], the size of the
    game area, and the three results of [Math.random()] a spawn consumes
    (value, horizontal position, speed). *)
Record Env := mkEnv {
  perfInit : Q;
  perfNow : Q;
  wallNow : Z;
  clientWidth : Z;
  clientHeight : Z;
  rndValue : Q;
  rndX : Q;
  rndSpeed : Q
}.

(** The value [spawnInvader()] draws: 1 to 9 for the single-digit
    difficulty, 10 to 99 otherwise. *)
Definition spawnValue (g : Game) (e : Env) : Z :=
  if String.eqb (difficulty (settings g)) "single"
  then JS.floor (rndValue e * 9) + 1
  else JS.floor (rndValue e * 90) + 10.

(** [spawnInvader()] *)
Definition spawnInvader (e : Env) (g : Game) : Game :=
  let value := spawnValue g e in
  let inv := Invader_new value (clientWidth e) (speedSetting (settings g))
               (rndX e) (rndSpeed e) in
  g |> set_invaders (invaders g ++ [inv]).

(** The body of the miss-detection loop of [gameLoop],
    [for (let i = length - 1; i >= 0; i--)], with [n = i + 1] iterations
    left.  The list holds the invader objects, so [inv.update] is an
    update in place at index [i]; [splice(i, 1)] is [delete i]. *)
Fixpoint missLoop (n : nat) (delta : Q) (height : Z) (g : Game) : Game :=
  match n with
  | O => g
  | S i =>
      match invaders g !! i with
      | Some inv =>
          let inv := update inv delta in
          let g := g |> set_invaders (<[i := inv]> (invaders g)) in
          let g :=
            if isOffScreen inv height
            then set_scoreWrong (scoreWrong g + 1)
                   (set_invaders (delete i (invaders g)) g)
            else g in
          missLoop i delta height g
      | None => g (* [undefined.update] throws; never reached, [i < length] *)
      end
  end.

(** Truthiness of [_lastFrameTime]: [null] and [0] are falsy. *)
Definition time_falsy (t : option Q) : bool :=
  match t with
  | Some q => Qeq_bool q 0
  | None => true
  end.

(** [timestamp || performance.now()]; [timestamp] is [None] for
    [undefined]. *)
Definition timestamp_or (timestamp : option Q) (p : Q) : Q :=
  match timestamp with
  | Some t => JS.num_or t p
  | None => p
  end.

(** The first statement of [gameLoop]:
    [if (!this._lastFrameTime) this._lastFrameTime = timestamp || performance.now()]. *)
Definition initFrameTime (timestamp : option Q) (e : Env) (g : Game) : Game :=
  if time_falsy (lastFrameTime g)
  then g |> set_lastFrameTime (Some (timestamp_or timestamp (perfInit e)))
  else g.

(** [delta] of [gameLoop], in seconds: the time since the last frame,
    at most a tenth of a second. *)
Definition frameDelta (timestamp : option Q) (e : Env) (g : Game) : Q :=
  let g := initFrameTime timestamp e g in
  let now := timestamp_or timestamp (perfNow e) in
  let deltaMs := (now - default 0 (lastFrameTime g))%Q in
  JS.min (1 # 10) (deltaMs / 1000).

(** The spawn block of [gameLoop]. *)
Definition spawnStep (e : Env) (g : Game) : Game :=
  if spawnInterval g <=? wallNow e - lastSpawnTime g
  then
    let g := g |> spawnInvader e |> set_lastSpawnTime (wallNow e) in
    if 600 <? spawnInterval g
    then g |> set_spawnInterval (spawnInterval g - 50)
    else g
  else g.

(** [gameLoop(timestamp)] *)
Definition gameLoop (timestamp : option Q) (e : Env) (g : Game) : Game :=
  let delta := frameDelta timestamp e g in
  let g := initFrameTime timestamp e g in
  let now := timestamp_or timestamp (perfNow e) in
  let g := if loopTicks g <? 3 then g |> set_loopTicks (loopTicks g + 1)
           else g in
  let g := spawnStep e g in
  let g := missLoop (length (invaders g)) delta (clientHeight e) g in
  g |> set_lastFrameTime (Some now) |> set_gameLoopId true.

(** [updateAnswerDisplay()] *)
Definition updateAnswerDisplay (g : Game) : Game :=
  g |> set_answerDisplay
         (if String.eqb (currentAnswer g) "" then "0" else currentAnswer g).

(** [showAlert(message, type)] *)
Definition showAlert (message type : string) (g : Game) : Game :=
  g |> set_alertTimer false
    |> set_gameAlert (Some (message, type))
    |> set_alertTimer true.

(** The callback [showAlert] arms. *)
Definition alertTimeout (g : Game) : Game :=
  g |> set_gameAlert None |> set_alertTimer false.

(** [stopGameForCelebration()] *)
Definition stopGameForCelebration (g : Game) : Game :=
  g |> set_timerId false |> set_gameLoopId false |> set_alertTimer false.

(** [finalizeEndGame(didWin)] *)
Definition finalizeEndGame (didWin : bool) (g : Game) : Game :=
  let g := g |> cleanup |> set_screen GameOverScreen in
  let lostByWrong := scoreRight g <? scoreWrong g in
  if lostByWrong
  then g |> set_gameOverTitle "You Lost!"
  else g |> set_gameOverTitle
              (if String.eqb (mode (settings g)) "score" && didWin
               then "You Win!"
               else if didWin then "You Win!" else "Game Over!").

(** [endGame(didWin)] *)
Definition endGame (didWin : bool) (g : Game) : Game :=
  let g := stopGameForCelebration g in
  let lostByWrong := scoreRight g <? scoreWrong g in
  let actuallyWon := didWin && negb lostByWrong in
  let g := finalizeEndGame actuallyWon g in
  if actuallyWon then startWinCelebration g else g.

(** [required === answer], [answer] the result of [parseInt]: nothing is
    equal to [NaN]. *)
Definition strict_eq (required : Z) (answer : option Z) : bool :=
  match answer with
  | Some a => required =? a
  | None => false
  end.

(** The scan of [checkAnswer], [for (let i = 0; i < length; i++)], over
    the invaders from index [i] on: the index at which it breaks, [None]
    for [-1]. *)
Fixpoint scanFrom (i : nat) (l : list Invader) (m : Z) (answer : option Z)
    : option nat :=
  match l with
  | [] => None
  | inv :: rest =>
      if strict_eq (value inv * m) answer then Some i
      else scanFrom (S i) rest m answer
  end.

(** [checkAnswer()] *)
Definition checkAnswer (g : Game) : Game :=
  if String.eqb (currentAnswer g) "" then g
  else
    let answer := JS.parseInt (currentAnswer g) in
    let correctIndex := scanFrom 0 (invaders g) (multiplier g) answer in
    let g :=
      match correctIndex with
      | Some i =>
          let g := g |> set_invaders (delete i (invaders g)) in
          let g := g |> set_scoreRight (scoreRight g + 1) in
          let g := g |> showAlert "Correct!" "correct" in
          if String.eqb (mode (settings g)) "score"
             && (limit (settings g) <=? scoreRight g)
          then endGame true g
          else g
      | None =>
          let g := g |> set_scoreWrong (scoreWrong g + 1) in
          g |> showAlert "Wrong!" "wrong"
      end in
    g |> set_currentAnswer "" |> updateAnswerDisplay.

(** [key >= '0' && key <= '9'], a comparison of strings. *)
Definition is_digit_key (key : string) : bool :=
  JS.str_ge key "0" && JS.str_le key "9".

(** [handleKeypadInput(key)] *)
Definition handleKeypadInput (key : string) (g : Game) : Game :=
  let g :=
    if is_digit_key key then
      if (String.length (currentAnswer g) <? 5)%nat
      then g |> set_currentAnswer (currentAnswer g ++ key)
      else g
    else if String.eqb key "del"
    then g |> set_currentAnswer (JS.slice_0_m1 (currentAnswer g))
    else if String.eqb key "submit" then checkAnswer g
    else g in
  updateAnswerDisplay g.

(** The [keydown] listener: only while the game screen is displayed. *)
Definition onKeydown (key : string) (g : Game) : Game :=
  match screen g with
  | GameScreen =>
      if is_digit_key key then handleKeypadInput key g
      else if String.eqb key "Enter" then handleKeypadInput "submit" g
      else if String.eqb key "Backspace" then handleKeypadInput "del" g
      else g
  | _ => g
  end.

(** The [click] listener of the keypad; [key] is [btn.dataset.key], [None]
    when the click hit no button or the button carries no key. *)
Definition onKeypadClick (key : option string) (g : Game) : Game :=
  match key with
  | Some k => if String.eqb k "" then g else handleKeypadInput k g
  | None => g
  end.

(** The once-per-second callback [start] arms in timed mode. *)
Definition timerTick (g : Game) : Game :=
  let g := g |> set_timeLeft (timeLeft g - 1) in
  if timeLeft g <=? 0 then endGame true g else g.

(** [start()] up to the call of [gameLoop]: [f] is the form, [rMult] the
    draw of [setMultiplier] and [dateNow] the reading of [Date.now()] that
    makes the first spawn immediate. *)
Definition startInit (f : Form) (rMult : Q) (dateNow : Z) (g : Game) : Game :=
  let g := g |> getSettings f |> set_screen GameScreen |> cleanup in
  let g := g |> set_scoreRight 0 |> set_scoreWrong 0 |> set_invaders []
             |> set_spawnInterval 2500 in
  let g := g |> set_currentAnswer "" |> updateAnswerDisplay in
  let g := g |> setMultiplier rMult in
  let g := if String.eqb (mode (settings g)) "time"
           then g |> set_timeLeft (limit (settings g)) |> set_timerId true
           else g in
  let g := g |> set_lastSpawnTime (dateNow - spawnInterval g - 1) in
  g |> set_lastFrameTime None |> set_loopTicks 0.

(** [start()]; it runs the first frame itself, [this.gameLoop()], in the
    environment [e]. *)
Definition start (f : Form) (rMult : Q) (dateNow : Z) (e : Env) (g : Game)
    : Game :=
  gameLoop None e (startInit f rMult dateNow g).

(** ** The session as a transition system *)

(** What can happen to the controller: the two buttons, an animation
    frame, the countdown, the alert's timeout and the two input paths. *)
Inductive Event :=
| EvStart (f : Form) (rMult : Q) (dateNow : Z) (e : Env)
| EvRestart
| EvFrame (timestamp : Q) (e : Env)
| EvTick
| EvAlertTimeout
| EvKeydown (key : string)
| EvKeypad (key : option string).

(** A callback runs only while it is armed. *)
Definition step (g : Game) (ev : Event) : Game :=
  match ev with
  | EvStart f rMult dateNow e => start f rMult dateNow e g
  | EvRestart => showSettings g
  | EvFrame timestamp e =>
      if gameLoopId g then gameLoop (Some timestamp) e g else g
  | EvTick => if timerId g then timerTick g else g
  | EvAlertTimeout => if alertTimer g then alertTimeout g else g
  | EvKeydown key => onKeydown key g
  | EvKeypad key => onKeypadClick key g
  end.

Definition run (g : Game) (evs : list Event) : Game := foldl step g evs.

(** ** The win celebration: the particles of [startWinCelebration] *)

Module Celebration.

(** A particle of [winCelebrationParticles]. *)
Record Particle := mkParticle {
  px : Q;
  py : Q;
  pvx : Q;
  pvy : Q;
  life : Z;
  age : Z;
  size : Q;
  color : string;
  gravity : Q
}.

Definition colors : list string :=
  ["#ff4d4f"; "#ff7a18"; "#ffd166"; "#6ee7b7"; "#60a5fa"; "#c084fc";
   "#fb7185"; "#facc15"].

(** One particle of [makeBurst(cx, cy, count)].  [cosA] and [sinA] are
    the results of [Math.cos] and [Math.sin] on the angle drawn first; the
    other arguments are the results of [Math.random()] in the order the
    code draws them: speed, lift, life, size, colour, gravity. *)
Definition newParticle (cx cy cosA sinA rSpeed rLift rLife rSize rColor
    rGravity : Q) : Particle :=
  let speed := (1 + rSpeed * 6)%Q in
  let vx := (cosA * speed)%Q in
  let vy := (sinA * speed)%Q in
  {| px := cx;
     py := cy;
     pvx := vx;
     pvy := (vy - (1 + rLift * (15 # 10)))%Q;
     life := 60 + JS.floor (rLife * 60);
     age := 0;
     size := (1 + rSize * 3)%Q;
     color := default "" (colors !! Z.to_nat (JS.floor (rColor * 8)));
     gravity := ((6 # 100) + rGravity * (4 # 100))%Q |}.

(** The assignments of [step] to one particle:
    [p.age++; p.vy += p.gravity; p.x += p.vx; p.y += p.vy]. *)
Definition advance (p : Particle) : Particle :=
  let vy := (pvy p + gravity p)%Q in
  {| px := (px p + pvx p)%Q;
     py := (py p + vy)%Q;
     pvx := pvx p;
     pvy := vy;
     life := life p;
     age := age p + 1;
     size := size p;
     color := color p;
     gravity := gravity p |}.

(** [lifeRatio <= 0], with [lifeRatio = 1 - p.age / p.life]. *)
Definition expired (p : Particle) : bool :=
  Qle_bool (1 - inject_Z (age p) / inject_Z (life p)) 0.

(** The loop of [step], [for (let i = length - 1; i >= 0; i--)], with
    [n = i + 1] iterations left; the drawing is left out. *)
Fixpoint particleLoop (n : nat) (l : list Particle) : list Particle :=
  match n with
  | O => l
  | S i =>
      match l !! i with
      | Some p =>
          let p := advance p in
          let l := <[i := p]> l in
          let l := if expired p then delete i l else l in
          particleLoop i l
      | None => l (* never reached, [i < length] *)
      end
  end.

(** [step]: the particles it leaves and whether it asks for another
    animation frame ([winCelebrationAnimId] is set, not [null]). *)
Definition step (l : list Particle) : list Particle * bool :=
  let l := particleLoop (length l) l in
  (l, negb (length l =? 0)%nat).

(** [k] animation frames in a row, no burst arriving in between. *)
Definition steps (k : nat) (l : list Particle) : list Particle :=
  Nat.iter k (fun l => fst (step l)) l.

End Celebration.

(** ** Vocabulary of the properties *)

(** The invaders of [l] after [update(delta)]. *)
Definition moved (delta : Q) (l : list Invader) : list Invader :=
  (fun inv => update inv delta) <$> l.

(** Those of [l] that are not off screen, and those that are. *)
Definition kept (height : Z) (l : list Invader) : list Invader :=
  filter (fun inv => isOffScreen inv height = false) l.

Definition missed (height : Z) (l : list Invader) : list Invader :=
  filter (fun inv => isOffScreen inv height = true) l.

(** The kind of an event. *)
Definition is_start (ev : Event) : bool :=
  match ev with EvStart _ _ _ _ => true | _ => false end.

Definition is_frame (ev : Event) : bool :=
  match ev with EvFrame _ _ => true | _ => false end.

(** Events of one session: no [start] among them. *)
Definition in_session (evs : list Event) : bool :=
  forallb (fun ev => negb (is_start ev)) evs.

(** The values the interval takes: 600, 650, ..., 2500. *)
Definition interval_ok (g : Game) : Prop :=
  exists k, 0 <= k <= 38 /\ spawnInterval g = 600 + 50 * k.

(** Index [i] holds the first invader, in list order, whose value times
    [m] is [a]. *)
Definition first_match (l : list Invader) (m a : Z) (i : nat) : Prop :=
  (exists inv, l !! i = Some inv /\ value inv * m = a) /\
  (forall j inv, (j < i)%nat -> l !! j = Some inv -> value inv * m <> a).

(** The submission reaches the target of a score-mode session. *)
Definition reaches_target (g : Game) : bool :=
  String.eqb (mode (settings g)) "score"
  && (limit (settings g) <=? scoreRight g + 1).

(** What the input handlers compose: nothing, or text that begins with a
    decimal digit. *)
Definition answer_ok (s : string) : Prop :=
  s = "" \/ exists c rest, s = String c rest /\ JS.is_digit c = true.

(** What [checkAnswer] and [handleKeypadInput] still do to the state
    [endGame] returned: clear and redisplay the pending input. *)
Definition afterSubmit (g : Game) : Game :=
  g |> set_currentAnswer "" |> updateAnswerDisplay |> updateAnswerDisplay.

(** A numeric input is missing when its element is absent or its text is
    empty. *)
Definition missing (v : option string) : Prop := v = None \/ v = Some "".

(** [Math.random()] returns a number in [0, 1). *)
Definition unit_draw (r : Q) : Prop := (0 <= r)%Q /\ (r < 1)%Q.

(** An environment that differs from [e] in the draw of the value only. *)
Definition with_rndValue (r : Q) (e : Env) : Env :=
  mkEnv (perfInit e) (perfNow e) (wallNow e) (clientWidth e) (clientHeight e)
    r (rndX e) (rndSpeed e).

(** The draws of an event are results of [Math.random()]. *)
Definition env_draws_ok (e : Env) : Prop :=
  unit_draw (rndValue e) /\ unit_draw (rndX e) /\ unit_draw (rndSpeed e).

Definition draws_ok (ev : Event) : Prop :=
  match ev with
  | EvStart _ rMult _ e => unit_draw rMult /\ env_draws_ok e
  | EvFrame _ e => env_draws_ok e
  | _ => True
  end.

(** A key the handlers take for a digit is one character long, as the
    keys of a keyboard and of a ten-digit keypad are. *)
Definition short_key (key : string) : bool :=
  if is_digit_key key then (String.length key =? 1)%nat else true.

Definition short_keys (ev : Event) : bool :=
  match ev with
  | EvKeydown key => short_key key
  | EvKeypad (Some key) => short_key key
  | _ => true
  end.

(** Text made of decimal digits only, and the number it writes. *)
Fixpoint all_digits (s : string) : bool :=
  match s with
  | EmptyString => true
  | String c rest => JS.is_digit c && all_digits rest
  end.

Fixpoint digits_value_from (acc : Z) (s : string) : Z :=
  match s with
  | EmptyString => acc
  | String c rest => digits_value_from (10 * acc + JS.digit_val c) rest
  end.

Definition digits_value (s : string) : Z := digits_value_from 0 s.

(** The key events that type the characters of [s], one by one. *)
Fixpoint typing (s : string) : list Event :=
  match s with
  | EmptyString => []
  | String c rest => EvKeydown (String c "") :: typing rest
  end.

(** What the answer display shows for a pending input. *)
Definition shown (s : string) : string :=
  if String.eqb s "" then "0" else s.

Definition display_ok (g : Game) : Prop :=
  answerDisplay g = shown (currentAnswer g).

(** The callbacks are armed exactly while a session runs: the frame loop
    while the game screen is displayed, the countdown while it is
    displayed in timed mode; off the game screen no invader is left; a
    running countdown is positive and a running score is below its
    target. *)
Definition session_inv (g : Game) : Prop :=
  (gameLoopId g = true <-> screen g = GameScreen) /\
  (timerId g = true <->
   screen g = GameScreen /\ mode (settings g) = "time") /\
  (screen g <> GameScreen -> invaders g = []) /\
  (screen g = GameScreen -> mode (settings g) = "time" -> 1 <= timeLeft g) /\
  (screen g = GameScreen -> mode (settings g) = "score" ->
   scoreRight g < limit (settings g)).

(** An invader as the constructor can make it, and a multiplier as
    [setMultiplier] can set it. *)
Definition invader_ok (inv : Invader) : Prop :=
  1 <= value inv <= 99 /\ (0 < speed inv)%Q /\ (speed inv <= 180)%Q /\
  (10 <= x inv)%Q.

Definition play_inv (g : Game) : Prop :=
  (screen g = GameScreen -> 1 <= multiplier g <= 12) /\
  Forall invader_ok (invaders g).

(** A sequence of frames, each with its timestamp and environment, and
    the number of them that spawn. *)
Definition frames (g : Game) (fs : list (option Q * Env)) : Game :=
  foldl (fun g f => gameLoop (fst f) (snd f) g) g fs.

Fixpoint spawns (g : Game) (fs : list (option Q * Env)) : nat :=
  match fs with
  | [] => 0%nat
  | f :: rest =>
      let due := spawnInterval g <=? wallNow (snd f) - lastSpawnTime g in
      ((if due then 1 else 0)
       + spawns (gameLoop (fst f) (snd f) g) rest)%nat
  end.

(** The test of the spawn block, [wallNow - lastSpawnTime >= spawnInterval],
    in a frame that runs; a sequence of events of one session none of whose
    frames passes that test; an event that is not a frame whose
    [Date.now()] is [t] or later. *)
Definition spawn_due (g : Game) (ev : Event) : bool :=
  match ev with
  | EvFrame _ e =>
      gameLoopId g && (spawnInterval g <=? wallNow e - lastSpawnTime g)
  | _ => false
  end.

Fixpoint spawn_free (g : Game) (evs : list Event) : bool :=
  match evs with
  | [] => true
  | ev :: rest =>
      negb (is_start ev) && negb (spawn_due g ev)
      && spawn_free (step g ev) rest
  end.

Definition frame_before (t : Z) (ev : Event) : bool :=
  match ev with
  | EvFrame _ e => wallNow e <? t
  | _ => true
  end.

(** What an input event can do to the session: nothing to it, count a
    wrong answer, count a correct answer and remove one invader, or count
    a correct answer that reaches the target and end the session. *)
Definition input_effect (g g' : Game) : Prop :=
  settings g' = settings g /\ multiplier g' = multiplier g /\
  timeLeft g' = timeLeft g /\ spawnInterval g' = spawnInterval g /\
  ((screen g' = screen g /\ timerId g' = timerId g /\
    gameLoopId g' = gameLoopId g /\
    ((scoreRight g' = scoreRight g /\ scoreWrong g' = scoreWrong g /\
      invaders g' = invaders g) \/
     (scoreRight g' = scoreRight g /\ scoreWrong g' = scoreWrong g + 1 /\
      invaders g' = invaders g) \/
     (scoreRight g' = scoreRight g + 1 /\ scoreWrong g' = scoreWrong g /\
      reaches_target g = false /\
      exists i, (i < length (invaders g))%nat /\
                invaders g' = delete i (invaders g)))) \/
   (screen g' = GameOverScreen /\ timerId g' = false /\
    gameLoopId g' = false /\ invaders g' = [] /\
    scoreRight g' = scoreRight g + 1 /\ scoreWrong g' = scoreWrong g /\
    reaches_target g = true /\ invaders g <> [])).

(** A pending input of at most five decimal digits. *)
Definition pending_ok (s : string) : Prop :=
  all_digits s = true /\ (String.length s <= 5)%nat.

(** The key an input event carries. *)
Definition key_of (ev : Event) : option string :=
  match ev with
  | EvKeydown key => Some key
  | EvKeypad key => key
  | _ => None
  end.

(** The two fields [start] does not always assign: the game-over title
    and, outside the timed mode, the time left. *)
Definition forget_leftovers (g : Game) : Game :=
  g |> set_gameOverTitle "" |> set_timeLeft 0.

(** A shown alert has its timeout armed, and the win celebration runs
    only on the game-over screen under the title You Win!. *)
Definition overlay_inv (g : Game) : Prop :=
  (gameAlert g = None \/ alertTimer g = true) /\
  (winCelebration g = true ->
   screen g = GameOverScreen /\ gameOverTitle g = "You Win!").

(** ** Sessions used as examples *)

(** A short score-mode session used in the examples below: target 1,
    fixed multiplier 5; the first frame spawns an invader of value 3, a
    later frame one of value 4, then the player types 1 and 5. *)
Definition scoreForm : Form :=
  mkForm (Some "single") (Some "score") (Some "easy") (Some "fixed")
    (Some "0") (Some "1") (Some "5").

Definition firstFrame : Env :=
  mkEnv 1000 1000 5000 400 600 (1 # 4) (1 # 2) (1 # 2).

Definition laterFrame : Env := mkEnv 0 0 8000 400 600 (3 # 9) 0 0.

Definition scoreSession : list Event :=
  [EvStart scoreForm (1 # 2) 5000 firstFrame; EvFrame 1016 laterFrame;
   EvKeydown "1"; EvKeydown "5"].

Definition beforeSubmit : Game :=
  Eval vm_compute in run (showSettings Game_new) scoreSession.

(** A timed session in random-multiplier mode: the draw of [start] gives
    the multiplier 5; the player answers the first invader (3, so 15),
    a second invader (4) is spawned and answered (20), and the countdown
    ticks. *)
Definition randomForm : Form :=
  mkForm (Some "single") (Some "time") (Some "easy") (Some "random")
    (Some "60") None None.

Definition randomSession : list Event :=
  [EvStart randomForm (4 # 9) 5000 firstFrame;
   EvKeydown "1"; EvKeydown "5"; EvKeydown "Enter"; EvTick;
   EvFrame 1016 laterFrame;
   EvKeydown "2"; EvKeydown "0"; EvKeydown "Enter"; EvTick].

Definition afterStart : Game :=
  Eval vm_compute in run (showSettings Game_new) (take 1 randomSession).

(** ** Proof automation *)

(** Reading a field after assignments. *)
Ltac fields :=
  cbn [
    settings scoreRight scoreWrong multiplier invaders gameLoopId
    timerId timeLeft spawnInterval lastSpawnTime alertTimer
    currentAnswer lastFrameTime loopTicks screen gameOverTitle
    gameAlert answerDisplay winCelebration set_settings set_scoreRight
    set_scoreWrong set_multiplier set_invaders set_gameLoopId
    set_timerId set_timeLeft set_spawnInterval set_lastSpawnTime
    set_alertTimer set_currentAnswer set_lastFrameTime set_loopTicks
    set_screen set_gameOverTitle set_gameAlert set_answerDisplay
    set_winCelebration ].

(** Case analysis on the tests of a frame's straight-line part. *)
Ltac frame_cases :=
  unfold initFrameTime, spawnStep, spawnInvader; simpl;
  repeat (match goal with
          | |- context [if ?b then _ else _] =>
              lazymatch b with
              | context [if _ then _ else _] => fail
              | _ => destruct b eqn:?
              end
          end; simpl in *);
  try congruence.

(** Case analysis on the tests of the operations outside the frame. *)
Ltac controller_cases :=
  unfold onKeydown, onKeypadClick, handleKeypadInput, checkAnswer, timerTick,
    alertTimeout, showSettings, endGame, finalizeEndGame, startWinCelebration,
    stopGameForCelebration, cleanup, stopWinCelebration, showAlert,
    updateAnswerDisplay;
  fields;
  repeat (match goal with
          | |- context [if ?b then _ else _] =>
              lazymatch b with
              | context [if _ then _ else _] => fail
              | context [match _ with _ => _ end] => fail
              | _ => destruct b eqn:?
              end
          | |- context [match ?b with _ => _ end] =>
              lazymatch b with
              | context [if _ then _ else _] => fail
              | context [match _ with _ => _ end] => fail
              | _ => destruct b eqn:?
              end
          end; fields);
  try congruence.

(** Case analysis on the tests of [start]. *)
Ltac start_cases :=
  unfold startInit, setMultiplier, getSettings, cleanup, stopWinCelebration,
    updateAnswerDisplay;
  fields;
  repeat (match goal with
          | |- context [if ?b then _ else _] =>
              lazymatch b with
              | context [if _ then _ else _] => fail
              | _ => destruct b eqn:?
              end
          end; fields);
  try congruence.

(** * Properties *)

(** ** JavaScript primitives *)

Example parseInt_15 : JS.parseInt "15" = Some 15.
Proof. reflexivity. Qed.
Example parseInt_neg : JS.parseInt "  -07x" = Some (-7).
Proof. reflexivity. Qed.
Example parseInt_nan : JS.parseInt "abc" = None /\ JS.parseInt "" = None.
Proof. split; reflexivity. Qed.

(** ** Invaders *)

Lemma num_or_zero (v : Q) : (JS.num_or v 0 == v)%Q.
Proof.
  unfold JS.num_or. destruct (Qeq_bool v 0) eqn:E; [|reflexivity].
  apply Qeq_bool_eq in E. now rewrite E.
Qed.

Lemma isOffScreen_spec (inv : Invader) (height : Z) :
  isOffScreen inv height = true <-> (inject_Z height < y inv)%Q.
Proof.
  unfold isOffScreen. rewrite negb_true_iff.
  destruct (Qle_bool (y inv) (inject_Z height)) eqn:E.
  - apply Qle_bool_iff in E. split; [discriminate|].
    intros H. exfalso. exact (Qlt_not_le _ _ H E).
  - split; [intros _|reflexivity]. apply Qnot_le_lt. intros H.
    apply Qle_bool_iff in H. congruence.
Qed.

(** The speed the constructor draws is positive, whatever the setting. *)
Lemma Invader_new_speed_pos (v w : Z) (setting : string) (rx rs : Q) :
  (0 <= rs)%Q -> (0 < speed (Invader_new v w setting rx rs))%Q.
Proof.
  intros Hrs. unfold Invader_new; simpl.
  destruct (String.eqb setting "easy"); [|destruct (String.eqb setting "fast")].
  - apply Qlt_le_trans with (30 + 0 * 30)%Q; [reflexivity|].
    apply Qplus_le_r, Qmult_le_compat_r; [exact Hrs | discriminate].
  - apply Qlt_le_trans with (110 + 0 * 70)%Q; [reflexivity|].
    apply Qplus_le_r, Qmult_le_compat_r; [exact Hrs | discriminate].
  - apply Qlt_le_trans with (60 + 0 * 60)%Q; [reflexivity|].
    apply Qplus_le_r, Qmult_le_compat_r; [exact Hrs | discriminate].
Qed.

(** One update: only [y] is assigned. *)
Lemma update_fields (inv : Invader) (delta : Q) :
  x (update inv delta) = x inv /\
  value (update inv delta) = value inv /\
  speed (update inv delta) = speed inv /\
  (y (update inv delta) == y inv + speed inv * delta)%Q.
Proof. repeat split. simpl. now rewrite num_or_zero. Qed.

Lemma update_y_le (inv : Invader) (delta : Q) :
  (0 < speed inv)%Q -> (0 <= delta)%Q -> (y inv <= y (update inv delta))%Q.
Proof.
  intros Hs Hd. destruct (update_fields inv delta) as (_ & _ & _ & ->).
  apply Qle_trans with (y inv + 0)%Q; [rewrite Qplus_0_r; apply Qle_refl|].
  apply Qplus_le_r, Qmult_le_0_compat; [apply Qlt_le_weak, Hs | exact Hd].
Qed.

(** Any number of updates, one per frame. *)
Lemma updates_fields (deltas : list Q) :
  forall inv : Invader,
    (0 < speed inv)%Q -> Forall (fun d => (0 <= d)%Q) deltas ->
    x (foldl update inv deltas) = x inv /\
    value (foldl update inv deltas) = value inv /\
    speed (foldl update inv deltas) = speed inv /\
    (y inv <= y (foldl update inv deltas))%Q.
Proof.
  induction deltas as [|d deltas IH]; intros inv Hs Hall.
  - repeat split. apply Qle_refl.
  - apply Forall_cons in Hall as [Hd Hall]. simpl foldl.
    destruct (IH (update inv d) Hs Hall) as (Hx & Hv & Hsp & Hy).
    repeat split; try assumption.
    apply Qle_trans with (y (update inv d)); [|exact Hy].
    now apply update_y_le.
Qed.

(** C8: an update of an invader leaves its horizontal position, its value
    and its speed as they were and moves its vertical position by speed
    times delta; with a positive speed and deltas that are not negative,
    the vertical position does not decrease, over one update and over any
    sequence of updates, and the horizontal position stays the one the
    constructor set. *)
Theorem update_moves_down_only (inv : Invader) :
  (0 < speed inv)%Q ->
  (forall delta,
      x (update inv delta) = x inv /\
      value (update inv delta) = value inv /\
      speed (update inv delta) = speed inv /\
      (y (update inv delta) == y inv + speed inv * delta)%Q /\
      ((0 <= delta)%Q -> (y inv <= y (update inv delta))%Q)) /\
  (forall deltas,
      Forall (fun d => (0 <= d)%Q) deltas ->
      x (foldl update inv deltas) = x inv /\
      value (foldl update inv deltas) = value inv /\
      speed (foldl update inv deltas) = speed inv /\
      (y inv <= y (foldl update inv deltas))%Q).
Proof.
  intros Hs. split.
  - intros delta. destruct (update_fields inv delta) as (Hx & Hv & Hsp & Hy).
    repeat split; try assumption. intros Hd. now apply update_y_le.
  - intros deltas Hall. now apply updates_fields.
Qed.

Lemma update_moves_down_only_witness :
  let inv := Invader_new 7 400 "fast" (1 # 2) (1 # 2) in
  x (update inv (1 # 60)) = x inv /\ (y inv <= y (update inv (1 # 60)))%Q.
Proof.
  intros inv.
  destruct (update_moves_down_only inv) as [Hone _]; [reflexivity|].
  destruct (Hone (1 # 60)) as (Hx & _ & _ & _ & Hy).
  split; [exact Hx | apply Hy; discriminate].
Defined.

(** ** The miss-detection loop *)

Section MissLoop.

Variables (delta : Q) (height : Z).

Lemma set_invaders_scoreWrong_id (g : Game) :
  set_scoreWrong (scoreWrong g) (set_invaders (invaders g) g) = g.
Proof. now destruct g. Qed.

Lemma kept_app (l1 l2 : list Invader) :
  kept height (l1 ++ l2) = kept height l1 ++ kept height l2.
Proof. apply filter_app. Qed.

Lemma missed_app (l1 l2 : list Invader) :
  missed height (l1 ++ l2) = missed height l1 ++ missed height l2.
Proof. apply filter_app. Qed.

Lemma moved_app (l1 l2 : list Invader) :
  moved delta (l1 ++ l2) = moved delta l1 ++ moved delta l2.
Proof. apply fmap_app. Qed.

Lemma kept_one (a : Invader) :
  kept height [a] = if isOffScreen a height then [] else [a].
Proof.
  unfold kept. rewrite filter_cons, filter_nil.
  destruct (isOffScreen a height); now case_decide.
Qed.

Lemma missed_one (a : Invader) :
  missed height [a] = if isOffScreen a height then [a] else [].
Proof.
  unfold missed. rewrite filter_cons, filter_nil.
  destruct (isOffScreen a height); now case_decide.
Qed.

(** Every invader is either kept or missed. *)
Lemma kept_missed_length (l : list Invader) :
  (length (kept height l) + length (missed height l))%nat = length l.
Proof.
  induction l as [|a l IH]; [reflexivity|].
  change (a :: l) with ([a] ++ l).
  rewrite kept_app, missed_app, kept_one, missed_one, !length_app.
  destruct (isOffScreen a height); simpl; lia.
Qed.

(** With the invaders split into the part [l1] still to visit and the
    part [l2] already visited, the loop filters the moved [l1] and
    counts what it drops. *)
Lemma missLoop_app (l1 : list Invader) :
  forall (l2 : list Invader) (g : Game),
    invaders g = l1 ++ l2 ->
    missLoop (length l1) delta height g
    = set_scoreWrong
        (scoreWrong g + Z.of_nat (length (missed height (moved delta l1))))
        (set_invaders (kept height (moved delta l1) ++ l2) g).
Proof.
  induction l1 as [|a l1 IH] using rev_ind; intros l2 g Hg.
  - simpl in *. rewrite Z.add_0_r, <- Hg. symmetry.
    apply set_invaders_scoreWrong_id.
  - rewrite length_app, Nat.add_comm. simpl.
    rewrite Hg, <- app_assoc. simpl.
    rewrite list_lookup_middle by reflexivity.
    rewrite moved_app, kept_app, missed_app. simpl moved.
    rewrite kept_one, missed_one.
    replace (<[length l1:=update a delta]> (l1 ++ a :: l2))
      with (l1 ++ update a delta :: l2)
      by (replace (length l1) with (length l1 + 0)%nat by lia;
          now rewrite insert_app_r).
    destruct (isOffScreen (update a delta) height) eqn:Eoff.
    + simpl. rewrite delete_middle.
      rewrite (IH l2) by reflexivity. simpl.
      rewrite app_nil_r, length_app. simpl.
      unfold set_scoreWrong, set_invaders; simpl. f_equal. lia.
    + rewrite (IH (update a delta :: l2)) by reflexivity. simpl.
      rewrite app_nil_r, <- app_assoc. simpl.
      reflexivity.
Qed.

Lemma missLoop_all (g : Game) :
  missLoop (length (invaders g)) delta height g
  = set_scoreWrong
      (scoreWrong g
       + Z.of_nat (length (missed height (moved delta (invaders g)))))
      (set_invaders (kept height (moved delta (invaders g))) g).
Proof.
  rewrite (missLoop_app (invaders g) [] g) by now rewrite app_nil_r.
  now rewrite app_nil_r.
Qed.

End MissLoop.

(** ** One frame *)

Lemma spawnStep_invaders (e : Env) (g : Game) :
  invaders (spawnStep e g)
  = if spawnInterval g <=? wallNow e - lastSpawnTime g
    then invaders g
           ++ [Invader_new (spawnValue g e) (clientWidth e)
                 (speedSetting (settings g)) (rndX e) (rndSpeed e)]
    else invaders g.
Proof.
  unfold spawnStep.
  destruct (spawnInterval g <=? wallNow e - lastSpawnTime g); [|reflexivity].
  simpl. now destruct (600 <? spawnInterval g).
Qed.

Lemma spawnStep_spawnInterval (e : Env) (g : Game) :
  spawnInterval (spawnStep e g)
  = if spawnInterval g <=? wallNow e - lastSpawnTime g
    then if 600 <? spawnInterval g then spawnInterval g - 50
         else spawnInterval g
    else spawnInterval g.
Proof.
  unfold spawnStep.
  destruct (spawnInterval g <=? wallNow e - lastSpawnTime g); [|reflexivity].
  simpl. now destruct (600 <? spawnInterval g).
Qed.

(** What a frame does, field by field: the invaders present after the
    spawn block are moved and filtered, the misses are counted. *)
Lemma gameLoop_unfold (timestamp : option Q) (e : Env) (g : Game) :
  let delta := frameDelta timestamp e g in
  let active := moved delta (invaders (spawnStep e g)) in
  invaders (gameLoop timestamp e g) = kept (clientHeight e) active /\
  scoreWrong (gameLoop timestamp e g)
  = scoreWrong g + Z.of_nat (length (missed (clientHeight e) active)) /\
  scoreRight (gameLoop timestamp e g) = scoreRight g /\
  spawnInterval (gameLoop timestamp e g) = spawnInterval (spawnStep e g) /\
  multiplier (gameLoop timestamp e g) = multiplier g /\
  settings (gameLoop timestamp e g) = settings g /\
  screen (gameLoop timestamp e g) = screen g /\
  currentAnswer (gameLoop timestamp e g) = currentAnswer g /\
  gameOverTitle (gameLoop timestamp e g) = gameOverTitle g.
Proof.
  intros delta active. unfold gameLoop. rewrite missLoop_all.
  subst active delta. simpl. repeat split; frame_cases; reflexivity.
Qed.

Lemma gameLoop_lastSpawnTime (timestamp : option Q) (e : Env) (g : Game) :
  lastSpawnTime (gameLoop timestamp e g)
  = if spawnInterval g <=? wallNow e - lastSpawnTime g
    then wallNow e else lastSpawnTime g.
Proof.
  unfold gameLoop. rewrite missLoop_all. simpl. frame_cases; reflexivity.
Qed.

(** The frame's delta is not negative when the clock readings do not go
    backwards. *)
Lemma frameDelta_nonneg (timestamp : option Q) (e : Env) (g : Game) :
  (default 0 (lastFrameTime (initFrameTime timestamp e g))
   <= timestamp_or timestamp (perfNow e))%Q ->
  (0 <= frameDelta timestamp e g)%Q.
Proof.
  intros H. unfold frameDelta, JS.min.
  match goal with |- context [Qle_bool ?a ?b] => destruct (Qle_bool a b) end;
    [discriminate|].
  apply Qmult_le_0_compat; [|discriminate].
  now apply (proj1 (Qle_minus_iff _ _)).
Qed.

(** Every invader a frame leaves in the list is the update of one that
    was there before the frame or of the one the frame spawned. *)
Lemma gameLoop_invader_origin (timestamp : option Q) (e : Env) (g : Game)
    (inv' : Invader) :
  inv' ∈ invaders (gameLoop timestamp e g) ->
  exists inv,
    inv' = update inv (frameDelta timestamp e g) /\
    (inv ∈ invaders g \/
     inv = Invader_new (spawnValue g e) (clientWidth e)
             (speedSetting (settings g)) (rndX e) (rndSpeed e)).
Proof.
  destruct (gameLoop_unfold timestamp e g) as (-> & _). unfold kept, moved.
  rewrite list_elem_of_filter, list_elem_of_fmap.
  intros (_ & inv & -> & Hin). exists inv. split; [reflexivity|].
  rewrite spawnStep_invaders in Hin.
  destruct (spawnInterval g <=? wallNow e - lastSpawnTime g); [|now left].
  apply elem_of_app in Hin as [Hin|Hin]; [now left|right].
  now apply list_elem_of_singleton in Hin.
Qed.

(** C3: in every frame, the invaders present after the spawn block are
    moved by the frame's delta; those whose vertical position then
    strictly exceeds the height of the play area are removed and the wrong
    counter grows by one for each of them, the others stay in their
    order, and every invader is in exactly one of the two groups; the
    correct counter is untouched. *)
Theorem gameLoop_miss_detection (timestamp : option Q) (e : Env) (g : Game) :
  let delta := frameDelta timestamp e g in
  let height := clientHeight e in
  let active := moved delta (invaders (spawnStep e g)) in
  let g' := gameLoop timestamp e g in
  invaders g' = kept height active /\
  scoreWrong g' = scoreWrong g + Z.of_nat (length (missed height active)) /\
  scoreRight g' = scoreRight g /\
  (length (invaders g') + length (missed height active))%nat
  = length active /\
  (forall inv, inv ∈ missed height active <->
               inv ∈ active /\ (inject_Z height < y inv)%Q) /\
  (forall inv, inv ∈ invaders g' <->
               inv ∈ active /\ (y inv <= inject_Z height)%Q).
Proof.
  intros delta height active g'.
  destruct (gameLoop_unfold timestamp e g) as (Hi & Hw & Hr & _).
  fold delta in Hi, Hw. fold height active in Hi, Hw. fold g' in Hi, Hw, Hr.
  split; [exact Hi|]. split; [exact Hw|]. split; [exact Hr|].
  split; [rewrite Hi; apply kept_missed_length|]. split.
  - intros inv. unfold missed. rewrite list_elem_of_filter.
    rewrite isOffScreen_spec. tauto.
  - intros inv. rewrite Hi. unfold kept. rewrite list_elem_of_filter.
    assert (isOffScreen inv height = false <-> (y inv <= inject_Z height)%Q)
      as ->; [|tauto].
    rewrite <- not_true_iff_false, isOffScreen_spec. split.
    + apply Qnot_lt_le.
    + intros H1 H2. exact (Qlt_not_le _ _ H2 H1).
Qed.

(** ** Fields the operations leave alone *)

(** Only [start] assigns the settings and the multiplier. *)
Lemma step_settings_multiplier (g : Game) (ev : Event) :
  is_start ev = false ->
  settings (step g ev) = settings g /\ multiplier (step g ev) = multiplier g.
Proof.
  destruct ev as [f r d e| |ts e| | |key|key]; cbn [step is_start];
    try discriminate; intros _.
  - split; controller_cases.
  - destruct (gameLoopId g); [|now split].
    destruct (gameLoop_unfold (Some ts) e g) as (_ & _ & _ & _ & Hm & Hs & _).
    now split.
  - split; controller_cases.
  - split; controller_cases.
  - split; controller_cases.
  - split; controller_cases.
Qed.

(** Only [start] and the frames assign the spawn interval. *)
Lemma step_spawnInterval (g : Game) (ev : Event) :
  is_start ev = false -> is_frame ev = false ->
  spawnInterval (step g ev) = spawnInterval g.
Proof.
  destruct ev as [f r d e| |ts e| | |key|key]; cbn [step is_start is_frame];
    try discriminate; intros _ _; controller_cases.
Qed.

(** ** Session start *)

Lemma startInit_spawnInterval (f : Form) (rMult : Q) (dateNow : Z) (g : Game) :
  spawnInterval (startInit f rMult dateNow g) = 2500.
Proof. start_cases; reflexivity. Qed.

Lemma startInit_scores (f : Form) (rMult : Q) (dateNow : Z) (g : Game) :
  scoreRight (startInit f rMult dateNow g) = 0 /\
  scoreWrong (startInit f rMult dateNow g) = 0 /\
  invaders (startInit f rMult dateNow g) = [] /\
  currentAnswer (startInit f rMult dateNow g) = "" /\
  screen (startInit f rMult dateNow g) = GameScreen.
Proof. repeat split; start_cases; reflexivity. Qed.

(** ** Runs *)

Lemma run_snoc (g : Game) (evs : list Event) (ev : Event) :
  run g (evs ++ [ev]) = step (run g evs) ev.
Proof. unfold run. now rewrite foldl_app. Qed.

(** A property of the initial state that every event preserves holds
    after every run. *)
Lemma run_invariant (P : Game -> Prop) :
  P (showSettings Game_new) ->
  (forall g ev, P g -> P (step g ev)) ->
  forall evs, P (run (showSettings Game_new) evs).
Proof.
  intros H0 Hstep evs. induction evs as [|ev evs IH] using rev_ind.
  - exact H0.
  - rewrite run_snoc. now apply Hstep.
Qed.

(** ** The spawn interval *)

Lemma spawnStep_interval_ok (e : Env) (g : Game) :
  interval_ok g -> exists k, 0 <= k <= 38 /\
                             spawnInterval (spawnStep e g) = 600 + 50 * k.
Proof.
  intros (k & Hk & Hs). rewrite spawnStep_spawnInterval.
  destruct (spawnInterval g <=? wallNow e - lastSpawnTime g);
    [|now exists k].
  destruct (600 <? spawnInterval g) eqn:E; [|now exists k].
  apply Z.ltb_lt in E. exists (k - 1). lia.
Qed.

Lemma step_interval_ok (g : Game) (ev : Event) :
  interval_ok g -> interval_ok (step g ev).
Proof.
  intros Hg. unfold interval_ok.
  destruct ev as [f r d e| |ts e| | |key|key];
    try (rewrite step_spawnInterval by reflexivity; exact Hg).
  - cbn [step]. unfold start.
    destruct (gameLoop_unfold None e (startInit f r d g))
      as (_ & _ & _ & -> & _).
    apply spawnStep_interval_ok. exists 38.
    rewrite startInit_spawnInterval. lia.
  - cbn [step]. destruct (gameLoopId g); [|exact Hg].
    destruct (gameLoop_unfold (Some ts) e g) as (_ & _ & _ & -> & _).
    now apply spawnStep_interval_ok.
Qed.

(** C5: [start] sets the spawn interval to 2500 before the first frame; a
    frame spawns one invader exactly when the wall-clock time since the
    last spawn is at least the interval, and then records the time of the
    spawn and lowers the interval by 50 if it is above 600; a frame that
    does not spawn leaves the interval alone; in every state of every run
    the interval is between 600 and 2500. *)
Theorem spawn_interval_policy :
  (forall f rMult dateNow g,
      spawnInterval (startInit f rMult dateNow g) = 2500) /\
  (forall timestamp e g,
      let due := spawnInterval g <=? wallNow e - lastSpawnTime g in
      let g' := gameLoop timestamp e g in
      (due = true <-> spawnInterval g <= wallNow e - lastSpawnTime g) /\
      invaders g'
      = kept (clientHeight e)
          (moved (frameDelta timestamp e g)
             (if due
              then invaders g
                     ++ [Invader_new (spawnValue g e) (clientWidth e)
                           (speedSetting (settings g)) (rndX e) (rndSpeed e)]
              else invaders g)) /\
      lastSpawnTime g' = (if due then wallNow e else lastSpawnTime g) /\
      spawnInterval g'
      = (if due
         then if 600 <? spawnInterval g then spawnInterval g - 50
              else spawnInterval g
         else spawnInterval g)) /\
  (forall evs,
      600 <= spawnInterval (run (showSettings Game_new) evs) <= 2500).
Proof.
  split; [exact startInit_spawnInterval|]. split.
  - intros ts e g due g'. subst g'. split; [apply Z.leb_le|].
    destruct (gameLoop_unfold ts e g) as (-> & _ & _ & -> & _).
    rewrite spawnStep_invaders, spawnStep_spawnInterval.
    split; [reflexivity|]. split; [|reflexivity].
    apply gameLoop_lastSpawnTime.
  - intros evs.
    assert (interval_ok (run (showSettings Game_new) evs)) as (k & Hk & ->).
    { apply run_invariant; [|exact step_interval_ok].
      exists 38. split; [lia|reflexivity]. }
    lia.
Qed.

(** ** End of game *)

(** The title [endGame] leaves, by the comparison of the two counters. *)
Lemma endGame_true_fields (g : Game) :
  screen (endGame true g) = GameOverScreen /\
  scoreRight (endGame true g) = scoreRight g /\
  scoreWrong (endGame true g) = scoreWrong g /\
  invaders (endGame true g) = [] /\
  gameOverTitle (endGame true g)
  = (if scoreRight g <? scoreWrong g then "You Lost!" else "You Win!") /\
  winCelebration (endGame true g) = negb (scoreRight g <? scoreWrong g).
Proof.
  unfold endGame, finalizeEndGame, startWinCelebration, cleanup,
    stopGameForCelebration, stopWinCelebration.
  fields. destruct (scoreRight g <? scoreWrong g); fields.
  - repeat split.
  - rewrite andb_true_r. fields.
    destruct (String.eqb (mode (settings g)) "score"); repeat split.
Qed.

Lemma endGame_false_fields (g : Game) :
  screen (endGame false g) = GameOverScreen /\
  gameOverTitle (endGame false g)
  = (if scoreRight g <? scoreWrong g then "You Lost!" else "Game Over!") /\
  winCelebration (endGame false g) = false.
Proof.
  unfold endGame, finalizeEndGame, startWinCelebration, cleanup,
    stopGameForCelebration, stopWinCelebration.
  fields. destruct (scoreRight g <? scoreWrong g); fields.
  - repeat split.
  - rewrite andb_false_r. repeat split.
Qed.

(** C2: when [endGame] is called with the win flag set, the session is
    recorded as a loss exactly when the wrong counter strictly exceeds the
    correct counter, and as a win otherwise; the win celebration is started
    exactly in the second case, so a loss by accuracy starts none.  The
    counters themselves are not touched. *)
Theorem endGame_win_flag_resolution (g : Game) :
  let g' := endGame true g in
  screen g' = GameOverScreen /\
  scoreRight g' = scoreRight g /\
  scoreWrong g' = scoreWrong g /\
  (gameOverTitle g' = "You Lost!" <-> scoreWrong g > scoreRight g) /\
  (gameOverTitle g' = "You Win!" <-> scoreWrong g <= scoreRight g) /\
  (winCelebration g' = false <-> scoreWrong g > scoreRight g) /\
  (winCelebration g' = true <-> scoreWrong g <= scoreRight g).
Proof.
  intros g'. subst g'.
  destruct (endGame_true_fields g) as (Hs & Hr & Hw & _ & Ht & Hc).
  rewrite Ht, Hc.
  destruct (scoreRight g <? scoreWrong g) eqn:E;
    [apply Z.ltb_lt in E | apply Z.ltb_ge in E]; simpl;
    repeat split; try assumption; try discriminate; intros; lia.
Qed.

(** ** Answer checking *)

Lemma first_match_unique (l : list Invader) (m a : Z) (i j : nat) :
  first_match l m a i -> first_match l m a j -> i = j.
Proof.
  intros [(inv & Hi & Hv) Hbefore] [(inv' & Hj & Hv') Hbefore'].
  destruct (Nat.lt_trichotomy i j) as [H|[H|H]]; [|exact H|].
  - exfalso. exact (Hbefore' i inv H Hi Hv).
  - exfalso. exact (Hbefore j inv' H Hj Hv').
Qed.

Lemma scanFrom_Some (m a : Z) (l : list Invader) :
  forall k n, scanFrom k l m (Some a) = Some n ->
              exists i, n = (k + i)%nat /\ first_match l m a i.
Proof.
  induction l as [|inv l IH]; intros k n H; simpl in H; [discriminate|].
  destruct (value inv * m =? a) eqn:E.
  - injection H as <-. exists 0%nat. split; [lia|]. split.
    + exists inv. split; [reflexivity|]. now apply Z.eqb_eq.
    + intros j inv' Hj. lia.
  - apply IH in H as (i & -> & [(inv' & Hi & Hv) Hbefore]).
    exists (S i). split; [lia|]. split.
    + exists inv'. now split.
    + intros [|j] inv'' Hj Hl; simpl in Hl.
      * injection Hl as <-. now apply Z.eqb_neq.
      * apply (Hbefore j inv''); [lia | exact Hl].
Qed.

Lemma scanFrom_None (m : Z) (answer : option Z) (l : list Invader) :
  forall k, scanFrom k l m answer = None ->
            forall inv, inv ∈ l -> strict_eq (value inv * m) answer = false.
Proof.
  induction l as [|inv l IH]; intros k H inv' Hin.
  - now apply elem_of_nil in Hin.
  - simpl in H. destruct (strict_eq (value inv * m) answer) eqn:E;
      [discriminate|].
    apply elem_of_cons in Hin as [->|Hin]; [exact E|].
    now apply (IH (S k)).
Qed.

Lemma scanFrom_NaN (m : Z) (l : list Invader) :
  forall k, scanFrom k l m None = None.
Proof. induction l as [|inv l IH]; intros k; simpl; [reflexivity|apply IH]. Qed.

Lemma first_match_scan (m a : Z) (l : list Invader) (i : nat) :
  first_match l m a i -> scanFrom 0 l m (Some a) = Some i.
Proof.
  intros Hi. destruct (scanFrom 0 l m (Some a)) as [n|] eqn:E.
  - apply scanFrom_Some in E as (j & -> & Hj). simpl. f_equal.
    exact (first_match_unique _ _ _ _ _ Hj Hi).
  - exfalso. destruct Hi as [(inv & Hl & Hv) _].
    assert (inv ∈ l) as Hin by (apply list_elem_of_lookup; eauto).
    pose proof (scanFrom_None _ _ _ _ E inv Hin) as Hne. simpl in Hne.
    apply Z.eqb_neq in Hne. contradiction.
Qed.

Lemma first_match_exists (m a : Z) (l : list Invader) :
  (exists inv, inv ∈ l /\ value inv * m = a) -> exists i, first_match l m a i.
Proof.
  intros (inv & Hin & Hv).
  destruct (scanFrom 0 l m (Some a)) as [n|] eqn:E.
  - apply scanFrom_Some in E as (i & _ & Hi). now exists i.
  - exfalso. pose proof (scanFrom_None _ _ _ _ E inv Hin) as Hne.
    simpl in Hne. apply Z.eqb_neq in Hne. contradiction.
Qed.

(** [checkAnswer] when the scan breaks at index [i]. *)
Lemma checkAnswer_hit (g : Game) (i : nat) :
  currentAnswer g <> "" ->
  scanFrom 0 (invaders g) (multiplier g) (JS.parseInt (currentAnswer g))
  = Some i ->
  checkAnswer g
  = (let g1 := g |> set_invaders (delete i (invaders g))
                 |> set_scoreRight (scoreRight g + 1)
                 |> showAlert "Correct!" "correct" in
     (if reaches_target g then endGame true g1 else g1)
       |> set_currentAnswer "" |> updateAnswerDisplay).
Proof.
  intros Hne Hscan. unfold checkAnswer.
  apply String.eqb_neq in Hne. rewrite Hne, Hscan. reflexivity.
Qed.

(** [checkAnswer] when the scan runs to the end. *)
Lemma checkAnswer_miss (g : Game) :
  currentAnswer g <> "" ->
  scanFrom 0 (invaders g) (multiplier g) (JS.parseInt (currentAnswer g))
  = None ->
  checkAnswer g
  = (g |> set_scoreWrong (scoreWrong g + 1) |> showAlert "Wrong!" "wrong"
       |> set_currentAnswer "" |> updateAnswerDisplay).
Proof.
  intros Hne Hscan. unfold checkAnswer.
  apply String.eqb_neq in Hne. rewrite Hne, Hscan. reflexivity.
Qed.

Lemma checkAnswer_empty (g : Game) :
  currentAnswer g = "" -> checkAnswer g = g.
Proof. intros H. unfold checkAnswer. now rewrite H. Qed.

Lemma checkAnswer_hit_fields (g : Game) (i : nat) :
  currentAnswer g <> "" ->
  scanFrom 0 (invaders g) (multiplier g) (JS.parseInt (currentAnswer g))
  = Some i ->
  scoreRight (checkAnswer g) = scoreRight g + 1 /\
  scoreWrong (checkAnswer g) = scoreWrong g /\
  invaders (checkAnswer g)
  = (if reaches_target g then [] else delete i (invaders g)) /\
  screen (checkAnswer g)
  = (if reaches_target g then GameOverScreen else screen g).
Proof.
  intros Hne Hscan. rewrite (checkAnswer_hit g i Hne Hscan).
  cbv zeta. unfold updateAnswerDisplay. fields.
  destruct (reaches_target g).
  - match goal with
    | |- context [endGame true ?g1] =>
        destruct (endGame_true_fields g1) as (-> & -> & -> & -> & _)
    end.
    unfold showAlert. fields. repeat split.
  - unfold showAlert. fields. repeat split.
Qed.

Lemma checkAnswer_miss_fields (g : Game) :
  currentAnswer g <> "" ->
  scanFrom 0 (invaders g) (multiplier g) (JS.parseInt (currentAnswer g))
  = None ->
  scoreRight (checkAnswer g) = scoreRight g /\
  scoreWrong (checkAnswer g) = scoreWrong g + 1 /\
  invaders (checkAnswer g) = invaders g /\
  screen (checkAnswer g) = screen g /\
  gameAlert (checkAnswer g) = Some ("Wrong!", "wrong") /\
  currentAnswer (checkAnswer g) = "".
Proof.
  intros Hne Hscan. rewrite (checkAnswer_miss g Hne Hscan).
  unfold updateAnswerDisplay, showAlert. fields. repeat split.
Qed.

Lemma beforeSubmit_run : beforeSubmit = run (showSettings Game_new) scoreSession.
Proof. vm_compute. reflexivity. Qed.

Example beforeSubmit_state :
  value <$> invaders beforeSubmit = [3; 4] /\
  multiplier beforeSubmit = 5 /\
  currentAnswer beforeSubmit = "15" /\
  screen beforeSubmit = GameScreen.
Proof. vm_compute. repeat split. Qed.

(** C1, as stated, fails: a matching submission that reaches the target of
    a score-mode session ends the session, and the teardown empties the
    active list, so the other invaders do not stay. *)
Lemma checkAnswer_removes_only_match_fails :
  ~ (forall (g : Game) (a : Z) (i : nat),
        currentAnswer g <> "" ->
        JS.parseInt (currentAnswer g) = Some a ->
        first_match (invaders g) (multiplier g) a i ->
        invaders (checkAnswer g) = delete i (invaders g)).
Proof.
  intros H. specialize (H beforeSubmit 15 0%nat).
  assert (invaders (checkAnswer beforeSubmit)
          = delete 0%nat (invaders beforeSubmit)) as Habs.
  { apply H.
    - vm_compute. discriminate.
    - vm_compute. reflexivity.
    - split.
      + eexists. split; [vm_compute; reflexivity | reflexivity].
      + intros j inv Hj. lia. }
  vm_compute in Habs. discriminate.
Qed.

(** The callbacks after [checkAnswer]: a match that reaches the target
    disarms them, anything else leaves them as they were. *)
Lemma checkAnswer_hit_callbacks (g : Game) (i : nat) :
  currentAnswer g <> "" ->
  scanFrom 0 (invaders g) (multiplier g) (JS.parseInt (currentAnswer g))
  = Some i ->
  timerId (checkAnswer g) = (if reaches_target g then false else timerId g) /\
  gameLoopId (checkAnswer g)
  = (if reaches_target g then false else gameLoopId g).
Proof.
  intros Hne Hscan. rewrite (checkAnswer_hit g i Hne Hscan).
  cbv zeta. unfold updateAnswerDisplay. fields.
  destruct (reaches_target g).
  - unfold endGame, finalizeEndGame, startWinCelebration, cleanup,
      stopGameForCelebration, stopWinCelebration, showAlert.
    fields.
    destruct (scoreRight g + 1 <? scoreWrong g); fields;
      rewrite ?andb_true_r; fields;
      try destruct (String.eqb (mode (settings g)) "score"); now split.
  - unfold showAlert. fields. now split.
Qed.

Lemma checkAnswer_miss_callbacks (g : Game) :
  currentAnswer g <> "" ->
  scanFrom 0 (invaders g) (multiplier g) (JS.parseInt (currentAnswer g))
  = None ->
  timerId (checkAnswer g) = timerId g /\
  gameLoopId (checkAnswer g) = gameLoopId g.
Proof.
  intros Hne Hscan. rewrite (checkAnswer_miss g Hne Hscan).
  unfold updateAnswerDisplay, showAlert. fields. now split.
Qed.

(** C1, amended: for a non-empty submission that parses as [a].  If some
    active invader has value times multiplier equal to [a], there is a
    first such invader in list order, the correct counter grows by one,
    the wrong counter is unchanged, and the active list loses exactly that
    invader, every other one staying as it was, the session running on --
    unless the session is in score mode and the correct counter thereby
    reaches the target, in which case the session ends (the game-over
    screen is shown, the countdown and the frame loop are disarmed) and
    the whole active list is emptied.  If no active invader matches, the
    wrong counter grows by one, the correct counter is unchanged, no
    invader is removed and the session runs on. *)
Theorem checkAnswer_resolves (g : Game) (a : Z) :
  currentAnswer g <> "" ->
  JS.parseInt (currentAnswer g) = Some a ->
  ((exists inv, inv ∈ invaders g /\ value inv * multiplier g = a) ->
   exists i,
     first_match (invaders g) (multiplier g) a i /\
     scoreRight (checkAnswer g) = scoreRight g + 1 /\
     scoreWrong (checkAnswer g) = scoreWrong g /\
     invaders (checkAnswer g)
     = (if reaches_target g then [] else delete i (invaders g)) /\
     screen (checkAnswer g)
     = (if reaches_target g then GameOverScreen else screen g) /\
     timerId (checkAnswer g)
     = (if reaches_target g then false else timerId g) /\
     gameLoopId (checkAnswer g)
     = (if reaches_target g then false else gameLoopId g)) /\
  ((forall inv, inv ∈ invaders g -> value inv * multiplier g <> a) ->
   scoreWrong (checkAnswer g) = scoreWrong g + 1 /\
   scoreRight (checkAnswer g) = scoreRight g /\
   invaders (checkAnswer g) = invaders g /\
   screen (checkAnswer g) = screen g /\
   timerId (checkAnswer g) = timerId g /\
   gameLoopId (checkAnswer g) = gameLoopId g).
Proof.
  intros Hne Hparse. split.
  - intros Hex. apply first_match_exists in Hex as (i & Hi).
    exists i. split; [exact Hi|].
    pose proof (first_match_scan _ _ _ _ Hi) as Hscan.
    rewrite <- Hparse in Hscan.
    destruct (checkAnswer_hit_fields g i Hne Hscan) as (Hr & Hw & Hl & Hs).
    destruct (checkAnswer_hit_callbacks g i Hne Hscan) as (Ht & Hloop).
    now repeat split.
  - intros Hnone.
    destruct (scanFrom 0 (invaders g) (multiplier g)
                (JS.parseInt (currentAnswer g))) as [n|] eqn:Hscan.
    + exfalso. rewrite Hparse in Hscan.
      apply scanFrom_Some in Hscan as (i & _ & [(inv & Hl & Hv) _]).
      apply (Hnone inv); [|exact Hv].
      apply list_elem_of_lookup. eauto.
    + destruct (checkAnswer_miss_fields g Hne Hscan)
        as (Hr & Hw & Hl & Hs & _).
      destruct (checkAnswer_miss_callbacks g Hne Hscan) as (Ht & Hloop).
      now repeat split.
Qed.

Lemma checkAnswer_resolves_witness :
  exists i, first_match (invaders beforeSubmit) 5 15 i /\
            scoreRight (checkAnswer beforeSubmit) = 1.
Proof.
  destruct (checkAnswer_resolves beforeSubmit 15) as [Hhit _].
  - vm_compute. discriminate.
  - vm_compute. reflexivity.
  - destruct Hhit as (i & Hi & Hr & _).
    + eexists. split; [apply list_elem_of_here | reflexivity].
    + exists i. split; [exact Hi | exact Hr].
Defined.

(** ** The pending input *)

Lemma digits_from_Some (s : string) :
  forall v, exists w, JS.digits_from (Some v) s = Some w.
Proof.
  induction s as [|c s IH]; intros v; simpl.
  - now exists v.
  - destruct (JS.is_digit c); [apply IH | now exists v].
Qed.

Lemma parseInt_leading_digit (c : ascii) (rest : string) :
  JS.is_digit c = true -> exists a, JS.parseInt (String c rest) = Some a.
Proof.
  intros Hd.
  assert (JS.parseInt (String c rest)
          = JS.digits_from (Some (10 * 0 + JS.digit_val c)) rest) as ->.
  { revert Hd. destruct c as [[] [] [] [] [] [] [] []];
      try (intros Hd; vm_compute in Hd; discriminate Hd);
      intros _; reflexivity. }
  apply digits_from_Some.
Qed.

Lemma answer_ok_parses (s : string) :
  answer_ok s -> s = "" \/ exists a, JS.parseInt s = Some a.
Proof.
  intros [->|(c & rest & -> & Hd)]; [now left|right].
  now apply parseInt_leading_digit.
Qed.

Lemma is_digit_key_leading (key : string) :
  is_digit_key key = true ->
  exists c rest, key = String c rest /\ JS.is_digit c = true.
Proof.
  intros H. destruct key as [|c rest]; [discriminate H|].
  exists c, rest. split; [reflexivity|]. revert H.
  destruct c as [[] [] [] [] [] [] [] []]; try reflexivity;
    intros H; vm_compute in H; discriminate H.
Qed.

Lemma answer_ok_append (s key : string) :
  answer_ok s -> is_digit_key key = true -> answer_ok (s ++ key)%string.
Proof.
  intros [->|(c & rest & -> & Hd)] Hk; right.
  - now apply is_digit_key_leading.
  - exists c, (rest ++ key)%string. now split.
Qed.

Lemma answer_ok_slice (s : string) :
  answer_ok s -> answer_ok (JS.slice_0_m1 s).
Proof.
  intros [->|(c & rest & -> & Hd)]; [now left|].
  destruct rest as [|c' rest]; [now left|right].
  exists c. eexists. split; [reflexivity | exact Hd].
Qed.

Lemma checkAnswer_currentAnswer (g : Game) : currentAnswer (checkAnswer g) = "".
Proof.
  unfold checkAnswer.
  destruct (String.eqb (currentAnswer g) "") eqn:E.
  - now apply String.eqb_eq.
  - unfold updateAnswerDisplay. now fields.
Qed.

Lemma handleKeypadInput_currentAnswer (key : string) (g : Game) :
  currentAnswer (handleKeypadInput key g)
  = if is_digit_key key then
      if (String.length (currentAnswer g) <? 5)%nat
      then (currentAnswer g ++ key)%string else currentAnswer g
    else if String.eqb key "del" then JS.slice_0_m1 (currentAnswer g)
    else if String.eqb key "submit" then "" else currentAnswer g.
Proof.
  unfold handleKeypadInput, updateAnswerDisplay. fields.
  destruct (is_digit_key key).
  - now destruct (String.length (currentAnswer g) <? 5)%nat.
  - destruct (String.eqb key "del"); [reflexivity|].
    destruct (String.eqb key "submit"); [|reflexivity].
    apply checkAnswer_currentAnswer.
Qed.

Lemma handleKeypadInput_answer_ok (key : string) (g : Game) :
  answer_ok (currentAnswer g) ->
  answer_ok (currentAnswer (handleKeypadInput key g)).
Proof.
  intros Hg. rewrite handleKeypadInput_currentAnswer.
  destruct (is_digit_key key) eqn:Ek.
  - destruct (String.length (currentAnswer g) <? 5)%nat; [|exact Hg].
    now apply answer_ok_append.
  - destruct (String.eqb key "del"); [now apply answer_ok_slice|].
    destruct (String.eqb key "submit"); [now left | exact Hg].
Qed.

Lemma step_answer_ok (g : Game) (ev : Event) :
  answer_ok (currentAnswer g) -> answer_ok (currentAnswer (step g ev)).
Proof.
  intros Hg. destruct ev as [f r d e| |ts e| | |key|key]; cbn [step].
  - unfold start.
    destruct (gameLoop_unfold None e (startInit f r d g))
      as (_ & _ & _ & _ & _ & _ & _ & -> & _).
    destruct (startInit_scores f r d g) as (_ & _ & _ & -> & _). now left.
  - unfold showSettings, cleanup, stopWinCelebration. now fields.
  - destruct (gameLoopId g); [|exact Hg].
    now destruct (gameLoop_unfold (Some ts) e g)
      as (_ & _ & _ & _ & _ & _ & _ & -> & _).
  - destruct (timerId g); [|exact Hg].
    replace (currentAnswer (timerTick g)) with (currentAnswer g);
      [exact Hg | controller_cases].
  - destruct (alertTimer g); [|exact Hg]. unfold alertTimeout. now fields.
  - unfold onKeydown. destruct (screen g); try exact Hg.
    destruct (is_digit_key key); [now apply handleKeypadInput_answer_ok|].
    destruct (String.eqb key "Enter");
      [now apply handleKeypadInput_answer_ok|].
    destruct (String.eqb key "Backspace");
      [now apply handleKeypadInput_answer_ok | exact Hg].
  - unfold onKeypadClick. destruct key as [k|]; [|exact Hg].
    destruct (String.eqb k ""); [exact Hg|].
    now apply handleKeypadInput_answer_ok.
Qed.

(** In every state of every run the pending input is empty or parses:
    the handlers only ever compose text that begins with a digit. *)
Lemma run_answer_parses (evs : list Event) :
  let g := run (showSettings Game_new) evs in
  currentAnswer g = "" \/ exists a, JS.parseInt (currentAnswer g) = Some a.
Proof.
  intros g. apply answer_ok_parses. subst g.
  apply run_invariant; [now left | exact step_answer_ok].
Qed.

Lemma handleKeypadInput_submit_empty (g : Game) :
  currentAnswer g = "" -> handleKeypadInput "submit" g = updateAnswerDisplay g.
Proof.
  intros Hg. unfold handleKeypadInput.
  replace (is_digit_key "submit") with false by (vm_compute; reflexivity).
  replace (String.eqb "submit" "del") with false by reflexivity.
  replace (String.eqb "submit" "submit") with true by reflexivity.
  now rewrite checkAnswer_empty.
Qed.

(** On a state whose pending input is not empty and does not parse, which
    by [run_answer_parses] no run reaches, [checkAnswer] has no guard: the
    scan finds nothing and the submission is counted as wrong. *)
Lemma checkAnswer_unparsable_nonempty (g : Game) :
  currentAnswer g <> "" ->
  JS.parseInt (currentAnswer g) = None ->
  scoreWrong (checkAnswer g) = scoreWrong g + 1 /\
  scoreRight (checkAnswer g) = scoreRight g /\
  invaders (checkAnswer g) = invaders g /\
  gameAlert (checkAnswer g) = Some ("Wrong!", "wrong") /\
  currentAnswer (checkAnswer g) = "".
Proof.
  intros Hne Hnan.
  assert (scanFrom 0 (invaders g) (multiplier g)
            (JS.parseInt (currentAnswer g)) = None) as Hscan
    by (rewrite Hnan; apply scanFrom_NaN).
  destruct (checkAnswer_miss_fields g Hne Hscan)
    as (Hr & Hw & Hl & _ & Ha & Hc).
  now repeat split.
Qed.

(** C9: submitting while the pending input is empty changes nothing at
    all -- neither counter, nor the active list, nor the pending input, nor
    the alert; the submit key then only redisplays the empty input.
    Likewise, in every state of every run, a submission whose pending
    input does not parse as an integer changes nothing: such an input is
    the empty one, the only unparsable text the keypad and the keyboard
    can compose. *)
Theorem submission_without_number_is_noop :
  (forall g, currentAnswer g = "" ->
             checkAnswer g = g /\
             handleKeypadInput "submit" g = updateAnswerDisplay g) /\
  (forall evs,
      let g := run (showSettings Game_new) evs in
      JS.parseInt (currentAnswer g) = None ->
      checkAnswer g = g /\
      scoreRight (checkAnswer g) = scoreRight g /\
      scoreWrong (checkAnswer g) = scoreWrong g /\
      invaders (checkAnswer g) = invaders g /\
      currentAnswer (checkAnswer g) = currentAnswer g /\
      gameAlert (checkAnswer g) = gameAlert g /\
      alertTimer (checkAnswer g) = alertTimer g /\
      handleKeypadInput "submit" g = updateAnswerDisplay g).
Proof.
  split.
  - intros g Hg. split; [now apply checkAnswer_empty|].
    now apply handleKeypadInput_submit_empty.
  - intros evs g Hnan.
    assert (currentAnswer g = "") as Hempty.
    { destruct (run_answer_parses evs) as [H|(a & H)]; [exact H|].
      fold g in H. congruence. }
    rewrite (checkAnswer_empty g Hempty).
    repeat split. now apply handleKeypadInput_submit_empty.
Qed.

Lemma submission_without_number_is_noop_witness :
  checkAnswer (run (showSettings Game_new) (take 1 randomSession))
  = run (showSettings Game_new) (take 1 randomSession).
Proof.
  refine (proj1 (proj2 submission_without_number_is_noop
                   (take 1 randomSession) _)).
  vm_compute. reflexivity.
Defined.

(** ** Leaving the running screen *)

Lemma afterSubmit_fields (g : Game) :
  screen (afterSubmit g) = screen g /\
  scoreRight (afterSubmit g) = scoreRight g /\
  scoreWrong (afterSubmit g) = scoreWrong g /\
  gameOverTitle (afterSubmit g) = gameOverTitle g /\
  winCelebration (afterSubmit g) = winCelebration g.
Proof. unfold afterSubmit, updateAnswerDisplay. fields. repeat split. Qed.

Lemma checkAnswer_screen (g : Game) :
  screen (checkAnswer g) = screen g \/
  exists g0, checkAnswer g
             = updateAnswerDisplay (set_currentAnswer "" (endGame true g0)).
Proof.
  destruct (String.eqb (currentAnswer g) "") eqn:E.
  - left. apply String.eqb_eq in E. now rewrite checkAnswer_empty.
  - apply String.eqb_neq in E.
    destruct (scanFrom 0 (invaders g) (multiplier g)
                (JS.parseInt (currentAnswer g))) as [i|] eqn:Hscan.
    + destruct (reaches_target g) eqn:Ht.
      * right. rewrite (checkAnswer_hit g i E Hscan), Ht. eexists. reflexivity.
      * left. destruct (checkAnswer_hit_fields g i E Hscan) as (_ & _ & _ & ->).
        now rewrite Ht.
    + left. now destruct (checkAnswer_miss_fields g E Hscan) as (_ & _ & _ & -> & _).
Qed.

Lemma handleKeypadInput_screen (key : string) (g : Game) :
  screen (handleKeypadInput key g) = screen g \/
  exists g0, handleKeypadInput key g = afterSubmit (endGame true g0).
Proof.
  unfold handleKeypadInput.
  destruct (is_digit_key key).
  - left. unfold updateAnswerDisplay.
    destruct (String.length (currentAnswer g) <? 5)%nat; now fields.
  - destruct (String.eqb key "del");
      [left; unfold updateAnswerDisplay; now fields|].
    destruct (String.eqb key "submit");
      [|left; unfold updateAnswerDisplay; now fields].
    destruct (checkAnswer_screen g) as [H|(g0 & H)].
    + left. unfold updateAnswerDisplay at 1. fields. exact H.
    + right. exists g0. now rewrite H.
Qed.

(** Every event that takes the controller from the running screen to the
    game-over screen does so through [endGame(true)]. *)
Lemma game_over_through_endGame (g : Game) (ev : Event) :
  screen g = GameScreen ->
  screen (step g ev) = GameOverScreen ->
  exists g0, step g ev = endGame true g0 \/
             step g ev = afterSubmit (endGame true g0).
Proof.
  intros Hrun Hover.
  destruct ev as [f r d e| |ts e| | |key|key]; cbn [step] in *.
  - exfalso. unfold start in Hover.
    destruct (gameLoop_unfold None e (startInit f r d g))
      as (_ & _ & _ & _ & _ & _ & Hs & _).
    destruct (startInit_scores f r d g) as (_ & _ & _ & _ & Hs').
    congruence.
  - exfalso. revert Hover.
    unfold showSettings, cleanup, stopWinCelebration. fields. discriminate.
  - exfalso. destruct (gameLoopId g); [|congruence].
    destruct (gameLoop_unfold (Some ts) e g)
      as (_ & _ & _ & _ & _ & _ & Hs & _).
    congruence.
  - destruct (timerId g); [|congruence]. unfold timerTick in *.
    revert Hover. fields.
    destruct (timeLeft g - 1 <=? 0); [|fields; congruence].
    intros _. eexists. left. reflexivity.
  - exfalso. destruct (alertTimer g); [|congruence]. revert Hover.
    unfold alertTimeout. fields. congruence.
  - unfold onKeydown in *. rewrite Hrun in *.
    assert (forall k, screen (handleKeypadInput k g) = GameOverScreen ->
                      exists g0, handleKeypadInput k g = endGame true g0 \/
                                 handleKeypadInput k g
                                 = afterSubmit (endGame true g0)) as Hk.
    { intros k Hs. destruct (handleKeypadInput_screen k g) as [H|(g0 & H)];
        [congruence|]. exists g0. now right. }
    destruct (is_digit_key key); [now apply Hk|].
    destruct (String.eqb key "Enter"); [now apply Hk|].
    destruct (String.eqb key "Backspace"); [now apply Hk|congruence].
  - unfold onKeypadClick in *. destruct key as [k|]; [|congruence].
    destruct (String.eqb k ""); [congruence|].
    destruct (handleKeypadInput_screen k g) as [H|(g0 & H)];
      [congruence|]. exists g0. now right.
Qed.

(** C10: every event that takes the controller from the running screen to
    the game-over screen, be it the countdown or a submission, ends the
    game by [endGame] with the win flag set; the outcome recorded is a win
    exactly when the wrong counter does not exceed the correct counter at
    that moment, a loss otherwise, and the win celebration runs exactly for
    a win. *)
Theorem game_over_outcome (g : Game) (ev : Event) :
  screen g = GameScreen ->
  screen (step g ev) = GameOverScreen ->
  let g' := step g ev in
  (exists g0, g' = endGame true g0 \/ g' = afterSubmit (endGame true g0)) /\
  (gameOverTitle g' = "You Win!" <-> scoreWrong g' <= scoreRight g') /\
  (gameOverTitle g' = "You Lost!" <-> scoreWrong g' > scoreRight g') /\
  (winCelebration g' = true <-> scoreWrong g' <= scoreRight g').
Proof.
  intros Hrun Hover g'.
  destruct (game_over_through_endGame g ev Hrun Hover) as (g0 & Hg0).
  split; [now exists g0|]. subst g'.
  assert (scoreRight (step g ev) = scoreRight g0 /\
          scoreWrong (step g ev) = scoreWrong g0 /\
          gameOverTitle (step g ev)
          = (if scoreRight g0 <? scoreWrong g0 then "You Lost!"
             else "You Win!") /\
          winCelebration (step g ev) = negb (scoreRight g0 <? scoreWrong g0))
    as (-> & -> & -> & ->).
  { destruct (endGame_true_fields g0) as (_ & Hr & Hw & _ & Ht & Hc).
    destruct Hg0 as [->| ->]; [now repeat split|].
    destruct (afterSubmit_fields (endGame true g0))
      as (_ & -> & -> & -> & ->).
    now repeat split. }
  destruct (scoreRight g0 <? scoreWrong g0) eqn:E;
    [apply Z.ltb_lt in E | apply Z.ltb_ge in E]; simpl;
    repeat split; try assumption; try discriminate; intros; lia.
Qed.

Lemma game_over_outcome_witness :
  gameOverTitle (step beforeSubmit (EvKeydown "Enter")) = "You Win!" <->
  scoreWrong (step beforeSubmit (EvKeydown "Enter"))
  <= scoreRight (step beforeSubmit (EvKeydown "Enter")).
Proof.
  destruct (game_over_outcome beforeSubmit (EvKeydown "Enter"))
    as (_ & H & _).
  - reflexivity.
  - vm_compute. reflexivity.
  - exact H.
Defined.

(** The two scenarios of a score-mode session with target 1, fixed
    multiplier 5 and one invader of value 3: submitting 15 at once wins;
    after two wrong submissions the same answer reaches the target and the
    session is lost. *)
Example target_reached_wins :
  let g := run (showSettings Game_new)
             [EvStart scoreForm (1 # 2) 5000 firstFrame;
              EvKeydown "1"; EvKeydown "5"; EvKeydown "Enter"] in
  (scoreRight g, scoreWrong g) = (1, 0) /\
  screen g = GameOverScreen /\
  gameOverTitle g = "You Win!" /\
  winCelebration g = true.
Proof. vm_compute. repeat split. Qed.

Example target_reached_after_two_wrong_loses :
  let g := run (showSettings Game_new)
             [EvStart scoreForm (1 # 2) 5000 firstFrame;
              EvKeydown "7"; EvKeydown "Enter";
              EvKeydown "8"; EvKeydown "Enter";
              EvKeydown "1"; EvKeydown "5"; EvKeydown "Enter"] in
  (scoreRight g, scoreWrong g) = (1, 2) /\
  screen g = GameOverScreen /\
  gameOverTitle g = "You Lost!" /\
  winCelebration g = false.
Proof. vm_compute. repeat split. Qed.

(** ** Invaders outside the frames *)

Lemma checkAnswer_invaders (g : Game) :
  invaders (checkAnswer g) `sublist_of` invaders g.
Proof.
  destruct (String.eqb (currentAnswer g) "") eqn:E.
  - apply String.eqb_eq in E. now rewrite checkAnswer_empty.
  - apply String.eqb_neq in E.
    destruct (scanFrom 0 (invaders g) (multiplier g)
                (JS.parseInt (currentAnswer g))) as [i|] eqn:Hscan.
    + destruct (checkAnswer_hit_fields g i E Hscan) as (_ & _ & -> & _).
      destruct (reaches_target g);
        [apply sublist_nil_l | apply sublist_delete].
    + now destruct (checkAnswer_miss_fields g E Hscan) as (_ & _ & -> & _).
Qed.

Lemma handleKeypadInput_invaders (key : string) (g : Game) :
  invaders (handleKeypadInput key g) `sublist_of` invaders g.
Proof.
  unfold handleKeypadInput, updateAnswerDisplay. fields.
  destruct (is_digit_key key).
  - destruct (String.length (currentAnswer g) <? 5)%nat; now fields.
  - destruct (String.eqb key "del"); [now fields|].
    destruct (String.eqb key "submit"); [|now fields].
    apply checkAnswer_invaders.
Qed.

(** Outside [start] and the frames no invader is created and none is
    modified: the active list can only lose elements. *)
Lemma step_invaders (g : Game) (ev : Event) :
  is_start ev = false -> is_frame ev = false ->
  invaders (step g ev) `sublist_of` invaders g.
Proof.
  destruct ev as [f r d e| |ts e| | |key|key]; cbn [step is_start is_frame];
    try discriminate; intros _ _.
  - unfold showSettings, cleanup. fields. apply sublist_nil_l.
  - destruct (timerId g); [|reflexivity]. unfold timerTick. fields.
    destruct (timeLeft g - 1 <=? 0); [|now fields].
    match goal with
    | |- context [endGame true ?g1] =>
        destruct (endGame_true_fields g1) as (_ & _ & _ & -> & _)
    end.
    apply sublist_nil_l.
  - destruct (alertTimer g); [|reflexivity]. unfold alertTimeout. now fields.
  - unfold onKeydown. destruct (screen g); try reflexivity.
    destruct (is_digit_key key); [apply handleKeypadInput_invaders|].
    destruct (String.eqb key "Enter"); [apply handleKeypadInput_invaders|].
    destruct (String.eqb key "Backspace");
      [apply handleKeypadInput_invaders | reflexivity].
  - unfold onKeypadClick. destruct key as [k|]; [|reflexivity].
    destruct (String.eqb k ""); [reflexivity|].
    apply handleKeypadInput_invaders.
Qed.

(** ** Settings *)

Lemma value_or_missing (v : option string) (d : string) :
  missing v -> value_or v d = d.
Proof. now intros [->| ->]. Qed.

Lemma value_or_present (s d : string) : s <> "" -> value_or (Some s) d = s.
Proof. intros H. apply String.eqb_neq in H. simpl. now rewrite H. Qed.

Lemma parseInt_present (s : string) (k : Z) :
  JS.parseInt s = Some k -> s <> "".
Proof. intros H ->. discriminate H. Qed.

Lemma clampMultiplier_range (n : option Z) : 1 <= clampMultiplier n <= 12.
Proof.
  unfold clampMultiplier. destruct n as [k|]; [|simpl; lia].
  destruct (k <? 1) eqn:E1; [simpl; lia|]. apply Z.ltb_ge in E1.
  destruct (12 <? k) eqn:E2; [lia|]. apply Z.ltb_ge in E2. lia.
Qed.

(** C4: [getSettings] clamps the numeric fields and rejects nothing.  A
    duration that is missing, does not parse, or is at most 0 becomes 60;
    a target score that is missing, does not parse, or is at most 0
    becomes 20; a fixed multiplier whose text does not parse or is below 1
    becomes 1 and one above 12 becomes 12 (a missing one is read as 7), so
    the effective fixed multiplier is always between 1 and 12; values
    inside the bounds are kept.  In particular a duration of 0 gives 60, a fixed multiplier of 15
    gives 12 and one of 0 gives 1. *)
Theorem getSettings_clamps (f : Form) (g : Game) :
  (* duration *)
  (missing (form_time_limit f) -> timeLimit_of f = 60) /\
  (forall s, form_time_limit f = Some s ->
     (JS.parseInt s = None -> timeLimit_of f = 60) /\
     (forall k, JS.parseInt s = Some k ->
                timeLimit_of f = if k <=? 0 then 60 else k)) /\
  (* target score *)
  (missing (form_score_limit f) -> scoreLimit_of f = 20) /\
  (forall s, form_score_limit f = Some s ->
     (JS.parseInt s = None -> scoreLimit_of f = 20) /\
     (forall k, JS.parseInt s = Some k ->
                scoreLimit_of f = if k <=? 0 then 20 else k)) /\
  (* fixed multiplier *)
  (missing (form_fixed_multiplier f) -> fixedMultiplier_of f = 7) /\
  (forall s, form_fixed_multiplier f = Some s -> s <> "" ->
     (JS.parseInt s = None -> fixedMultiplier_of f = 1) /\
     (forall k, JS.parseInt s = Some k ->
                fixedMultiplier_of f
                = if k <? 1 then 1 else if 12 <? k then 12 else k)) /\
  1 <= fixedMultiplier_of f <= 12 /\
  (* what the session uses *)
  fixedMultiplier (settings (getSettings f g)) = fixedMultiplier_of f /\
  limit (settings (getSettings f g))
  = (if String.eqb (mode (settings (getSettings f g))) "time"
     then timeLimit_of f else scoreLimit_of f) /\
  (* the three examples *)
  (form_time_limit f = Some "0" -> timeLimit_of f = 60) /\
  (form_fixed_multiplier f = Some "15" -> fixedMultiplier_of f = 12) /\
  (form_fixed_multiplier f = Some "0" -> fixedMultiplier_of f = 1).
Proof.
  unfold timeLimit_of, scoreLimit_of, fixedMultiplier_of.
  repeat match goal with |- _ /\ _ => split end.
  - intros H. now rewrite value_or_missing.
  - intros s Hs. rewrite Hs. split.
    + intros Hnan. destruct (String.eqb s "") eqn:E; simpl; rewrite E;
        [reflexivity | now rewrite Hnan].
    + intros k Hk. rewrite value_or_present by (now apply parseInt_present in Hk).
      now rewrite Hk.
  - intros H. now rewrite value_or_missing.
  - intros s Hs. rewrite Hs. split.
    + intros Hnan. destruct (String.eqb s "") eqn:E; simpl; rewrite E;
        [reflexivity | now rewrite Hnan].
    + intros k Hk. rewrite value_or_present by (now apply parseInt_present in Hk).
      now rewrite Hk.
  - intros H. now rewrite value_or_missing.
  - intros s Hs Hne. rewrite Hs, value_or_present by exact Hne. split.
    + intros Hnan. now rewrite Hnan.
    + intros k Hk. rewrite Hk. unfold clampMultiplier.
      destruct (k <? 1) eqn:E; [reflexivity|].
      now destruct (12 <? k).
  - apply clampMultiplier_range.
  - apply clampMultiplier_range.
  - reflexivity.
  - reflexivity.
  - intros H. now rewrite H.
  - intros H. now rewrite H.
  - intros H. now rewrite H.
Qed.

(** ** Random draws *)

Lemma floor_scaled_range (n : Z) (r : Q) :
  0 < n -> unit_draw r -> 0 <= JS.floor (r * inject_Z n) <= n - 1.
Proof.
  intros Hn [H0 H1]. unfold JS.floor. split.
  - change 0 with (Qfloor 0). apply Qfloor_resp_le.
    apply Qmult_le_0_compat; [exact H0|].
    change 0%Q with (inject_Z 0). rewrite <- Zle_Qle. lia.
  - assert (inject_Z (Qfloor (r * inject_Z n)) < inject_Z n)%Q as H.
    { apply Qle_lt_trans with (r * inject_Z n)%Q; [apply Qfloor_le|].
      apply Qlt_le_trans with (1 * inject_Z n)%Q.
      - apply Qmult_lt_compat_r; [|exact H1].
        change 0%Q with (inject_Z 0). rewrite <- Zlt_Qlt. lia.
      - rewrite Qmult_1_l. apply Qle_refl. }
    rewrite <- Zlt_Qlt in H. lia.
Qed.

Lemma floor_scaled_hits (n : positive) (k : Z) :
  JS.floor ((k # n) * inject_Z (Zpos n)) = k.
Proof.
  unfold JS.floor, Qfloor, Qmult, inject_Z. simpl.
  rewrite Pos.mul_1_r. apply Z.div_mul. discriminate.
Qed.

Lemma unit_draw_fraction (n : positive) (k : Z) :
  0 <= k < Zpos n -> unit_draw (k # n).
Proof.
  intros Hk. split.
  - unfold Qle. simpl. lia.
  - unfold Qlt. simpl. lia.
Qed.

(** ** Spawning *)

Lemma spawnValue_range (g : Game) (e : Env) :
  unit_draw (rndValue e) ->
  if String.eqb (difficulty (settings g)) "single"
  then 1 <= spawnValue g e <= 9
  else 10 <= spawnValue g e <= 99.
Proof.
  intros Hr. unfold spawnValue.
  destruct (String.eqb (difficulty (settings g)) "single").
  - pose proof (floor_scaled_range 9 _ ltac:(lia) Hr) as H.
    change (inject_Z 9) with 9%Q in H. lia.
  - pose proof (floor_scaled_range 90 _ ltac:(lia) Hr) as H.
    change (inject_Z 90) with 90%Q in H. lia.
Qed.

Lemma spawnValue_any (g : Game) (e : Env) (v : Z) :
  (if String.eqb (difficulty (settings g)) "single"
   then 1 <= v <= 9 else 10 <= v <= 99) ->
  exists r, unit_draw r /\ spawnValue g (with_rndValue r e) = v.
Proof.
  unfold spawnValue. cbn [rndValue with_rndValue].
  destruct (String.eqb (difficulty (settings g)) "single"); intros Hv.
  - exists ((v - 1) # 9). split; [apply unit_draw_fraction; lia|].
    pose proof (floor_scaled_hits 9 (v - 1)) as H.
    change (inject_Z 9) with 9%Q in H. rewrite H. lia.
  - exists ((v - 10) # 90). split; [apply unit_draw_fraction; lia|].
    pose proof (floor_scaled_hits 90 (v - 10)) as H.
    change (inject_Z 90) with 90%Q in H. rewrite H. lia.
Qed.

(** C6, as stated, fails: in a state of a run whose active list holds the
    values 3 and 4, a spawn whose draw is a quarter adds a second 3
    although a draw of zero would have added a 1. *)
Lemma spawn_repeats_present_value :
  ~ (forall (evs : list Event) (e e' : Env),
        let g := run (showSettings Game_new) evs in
        unit_draw (rndValue e) -> unit_draw (rndValue e') ->
        spawnValue g e' ∉ (value <$> invaders g) ->
        spawnValue g e ∉ (value <$> invaders g)).
Proof.
  intros H.
  specialize (H scoreSession firstFrame (with_rndValue 0 firstFrame)).
  rewrite <- beforeSubmit_run in H. cbv zeta in H.
  destruct beforeSubmit_state as (Hvalues & _). rewrite Hvalues in H.
  apply H.
  - split; [discriminate | reflexivity].
  - split; [discriminate | reflexivity].
  - change (spawnValue beforeSubmit (with_rndValue 0 firstFrame)) with 1.
    rewrite !elem_of_cons, elem_of_nil. intros [?|[?|[]]]; discriminate.
  - change (spawnValue beforeSubmit firstFrame) with 3.
    apply list_elem_of_here.
Qed.

(** C6, amended: a spawn appends exactly one invader to the active list;
    its value is computed from the random draw and the difficulty alone,
    1 to 9 for single, 10 to 99 otherwise, and not from the values already
    in the list; every value of the range can be spawned in every state,
    so the active list may hold several invaders of the same value. *)
Theorem spawnInvader_ignores_active_list (e : Env) (g : Game) :
  invaders (spawnInvader e g)
  = invaders g
      ++ [Invader_new (spawnValue g e) (clientWidth e)
            (speedSetting (settings g)) (rndX e) (rndSpeed e)] /\
  (forall g', difficulty (settings g') = difficulty (settings g) ->
              spawnValue g' e = spawnValue g e) /\
  (unit_draw (rndValue e) ->
   if String.eqb (difficulty (settings g)) "single"
   then 1 <= spawnValue g e <= 9
   else 10 <= spawnValue g e <= 99) /\
  (forall v,
      (if String.eqb (difficulty (settings g)) "single"
       then 1 <= v <= 9 else 10 <= v <= 99) ->
      exists r, unit_draw r /\
                value <$> invaders (spawnInvader (with_rndValue r e) g)
                = (value <$> invaders g) ++ [v]).
Proof.
  split; [reflexivity|]. split; [|split].
  - intros g' Hd. unfold spawnValue. now rewrite Hd.
  - apply spawnValue_range.
  - intros v Hv. destruct (spawnValue_any g e v Hv) as (r & Hr & Hs).
    exists r. split; [exact Hr|].
    unfold spawnInvader. fields. rewrite fmap_app. simpl. now rewrite Hs.
Qed.

(** ** The multiplier *)

Lemma startInit_multiplier (f : Form) (rMult : Q) (dateNow : Z) (g : Game) :
  settings (startInit f rMult dateNow g) = settings (getSettings f g) /\
  multiplier (startInit f rMult dateNow g)
  = (if String.eqb (multiplierMode (settings (getSettings f g))) "fixed"
     then fixedMultiplier_of f
     else if String.eqb (difficulty (settings (getSettings f g))) "single"
          then random_1_to 9 rMult else random_1_to 12 rMult).
Proof. split; start_cases; reflexivity. Qed.

Lemma start_multiplier (f : Form) (rMult : Q) (dateNow : Z) (e : Env)
    (g : Game) :
  settings (start f rMult dateNow e g) = settings (getSettings f g) /\
  multiplier (start f rMult dateNow e g)
  = (if String.eqb (multiplierMode (settings (getSettings f g))) "fixed"
     then fixedMultiplier_of f
     else if String.eqb (difficulty (settings (getSettings f g))) "single"
          then random_1_to 9 rMult else random_1_to 12 rMult).
Proof.
  unfold start.
  destruct (gameLoop_unfold None e (startInit f rMult dateNow g))
    as (_ & _ & _ & _ & -> & -> & _).
  apply startInit_multiplier.
Qed.

Lemma run_in_session (evs : list Event) :
  forall g, in_session evs = true ->
            settings (run g evs) = settings g /\
            multiplier (run g evs) = multiplier g.
Proof.
  induction evs as [|ev evs IH]; intros g H; [now split|].
  simpl in H. apply andb_true_iff in H as [Hev Hevs].
  apply negb_true_iff in Hev.
  destruct (step_settings_multiplier g ev Hev) as [Hs Hm].
  destruct (IH (step g ev) Hevs) as [Hs' Hm'].
  unfold run in *. simpl. split; congruence.
Qed.

Lemma afterStart_run :
  afterStart = run (showSettings Game_new) (take 1 randomSession).
Proof. vm_compute. reflexivity. Qed.

(** Along that session, after each event: the multiplier and the number of
    correct answers so far. *)
Example randomSession_trace :
  (fun n => let g := run (showSettings Game_new) (take n randomSession) in
            (multiplier g, scoreRight g)) <$> seq 1 10
  = [(5, 0); (5, 0); (5, 0); (5, 1); (5, 1);
     (5, 1); (5, 1); (5, 1); (5, 2); (5, 2)].
Proof. vm_compute. reflexivity. Qed.

(** C7, as stated, fails for the random mode: in a session started in
    random mode no event of the session draws the multiplier again; after
    two answered invaders it is still the 5 that [start] drew. *)
Lemma random_multiplier_not_redrawn :
  multiplierMode (settings afterStart) = "random" /\
  screen afterStart = GameScreen /\
  multiplier afterStart = 5 /\
  (let g := run (showSettings Game_new) randomSession in
   scoreRight g = 2 /\ multiplier g = 5) /\
  ~ (exists ev, is_start ev = false /\
                multiplier (step afterStart ev) <> multiplier afterStart).
Proof.
  split; [reflexivity|]. split; [reflexivity|]. split; [reflexivity|].
  split; [vm_compute; now split|].
  intros (ev & Hev & Hm).
  now destruct (step_settings_multiplier afterStart ev Hev) as [_ H].
Qed.

(** C7, amended: [start] sets the multiplier once -- in fixed mode to the
    player's clamped value, in any other mode to a random draw, 1 to 9 for
    the single-digit difficulty and 1 to 12 otherwise -- and no later event
    of the session changes it or the settings: in both modes the
    multiplier is constant for the whole session. *)
Theorem multiplier_set_once_per_session :
  (forall f rMult dateNow e g,
      let g' := start f rMult dateNow e g in
      multiplier g'
      = if String.eqb (multiplierMode (settings g')) "fixed"
        then fixedMultiplier_of f
        else if String.eqb (difficulty (settings g')) "single"
             then random_1_to 9 rMult else random_1_to 12 rMult) /\
  (forall f rMult dateNow e g,
      unit_draw rMult -> 1 <= multiplier (start f rMult dateNow e g) <= 12) /\
  (forall g ev, is_start ev = false ->
                multiplier (step g ev) = multiplier g) /\
  (forall g evs, in_session evs = true ->
                 multiplier (run g evs) = multiplier g /\
                 settings (run g evs) = settings g).
Proof.
  split; [|split; [|split]].
  - intros f r d e g g'. subst g'.
    destruct (start_multiplier f r d e g) as [-> ->]. reflexivity.
  - intros f r d e g Hr.
    destruct (start_multiplier f r d e g) as [_ ->].
    destruct (String.eqb (multiplierMode (settings (getSettings f g))) "fixed").
    + apply clampMultiplier_range.
    + unfold random_1_to.
      destruct (String.eqb (difficulty (settings (getSettings f g))) "single").
      * pose proof (floor_scaled_range 9 _ ltac:(lia) Hr). lia.
      * pose proof (floor_scaled_range 12 _ ltac:(lia) Hr). lia.
  - intros g ev Hev. now destruct (step_settings_multiplier g ev Hev).
  - intros g evs H. now destruct (run_in_session evs g H).
Qed.

(** * Further properties of the controller *)

(** ** The constructor of an invader *)

Lemma max_0_nonneg (q : Q) : (0 <= JS.max 0 q)%Q.
Proof.
  unfold JS.max. destruct (Qle_bool 0 q) eqn:E.
  - now apply Qle_bool_iff.
  - apply Qle_refl.
Qed.

Lemma scaled_draw_range (r a b : Q) :
  unit_draw r -> (0 < b)%Q -> (a <= a + r * b)%Q /\ (a + r * b <= a + b)%Q.
Proof.
  intros [H0 H1] Hb. split.
  - apply Qle_trans with (a + 0)%Q; [rewrite Qplus_0_r; apply Qle_refl|].
    apply Qplus_le_r, Qmult_le_0_compat; [exact H0 | now apply Qlt_le_weak].
  - apply Qplus_le_r. apply Qle_trans with (1 * b)%Q.
    + apply Qmult_le_compat_r; now apply Qlt_le_weak.
    + rewrite Qmult_1_l. apply Qle_refl.
Qed.

(** The constructor starts every invader 50 pixels above the play area,
    at least 10 pixels from the left edge and, when the area is at least
    80 pixels wide, at least 70 pixels from the right edge; the speed lies
    in the range of the speed setting, from 30 to 60 for easy, from 110 to
    180 for fast and from 60 to 120 for anything else, bounds included. *)
Theorem Invader_new_ranges (v w : Z) (setting : string) (rx rs : Q) :
  unit_draw rx -> unit_draw rs ->
  let inv := Invader_new v w setting rx rs in
  value inv = v /\ y inv = (-50)%Q /\
  (10 <= x inv)%Q /\
  (80 <= w -> (x inv <= inject_Z w - 70)%Q) /\
  (w <= 80 -> (x inv == 10)%Q) /\
  (if String.eqb setting "easy" then (30 <= speed inv <= 60)%Q
   else if String.eqb setting "fast" then (110 <= speed inv <= 180)%Q
   else (60 <= speed inv <= 120)%Q).
Proof.
  intros Hx Hs inv. subst inv. unfold Invader_new.
  cbn [value x y speed].
  split; [reflexivity|]. split; [reflexivity|]. split; [|split; [|split]].
  - apply Qle_trans with (10 + 0)%Q; [rewrite Qplus_0_r; apply Qle_refl|].
    apply Qplus_le_r, Qmult_le_0_compat; [apply Hx | apply max_0_nonneg].
  - intros Hw. unfold JS.max.
    assert (inject_Z 80 <= inject_Z w)%Q as Hq by (now rewrite <- Zle_Qle).
    change (inject_Z 80) with 80%Q in Hq.
    assert (0 <= inject_Z w - 80)%Q as Hw' by lra.
    apply Qle_bool_iff in Hw'. rewrite Hw'. apply Qle_bool_iff in Hw'.
    destruct Hx as [Hx0 Hx1].
    assert (rx * (inject_Z w - 80) <= 1 * (inject_Z w - 80))%Q as Hm
      by (apply Qmult_le_compat_r; [now apply Qlt_le_weak | exact Hw']).
    lra.
  - intros Hw. unfold JS.max.
    assert (inject_Z w <= inject_Z 80)%Q as Hq by (now rewrite <- Zle_Qle).
    change (inject_Z 80) with 80%Q in Hq.
    destruct (Qle_bool 0 (inject_Z w - 80)) eqn:E.
    + apply Qle_bool_iff in E.
      assert (inject_Z w - 80 == 0)%Q as -> by lra. lra.
    + lra.
  - destruct (String.eqb setting "easy");
      [|destruct (String.eqb setting "fast")].
    + destruct (scaled_draw_range rs 30 30 Hs) as [H1 H2]; [reflexivity|].
      split; [exact H1 | exact H2].
    + destruct (scaled_draw_range rs 110 70 Hs) as [H1 H2]; [reflexivity|].
      split; [exact H1 | exact H2].
    + destruct (scaled_draw_range rs 60 60 Hs) as [H1 H2]; [reflexivity|].
      split; [exact H1 | exact H2].
Qed.

Lemma Invader_new_ranges_witness :
  let inv := Invader_new 7 400 "fast" (1 # 2) (1 # 2) in
  (10 <= x inv)%Q /\ (110 <= speed inv <= 180)%Q.
Proof.
  intros inv.
  destruct (Invader_new_ranges 7 400 "fast" (1 # 2) (1 # 2))
    as (_ & _ & Hx & _ & _ & Hs).
  - split; [discriminate | reflexivity].
  - split; [discriminate | reflexivity].
  - split; [exact Hx | exact Hs].
Defined.

(** ** The frame's delta *)

Lemma frameDelta_le (timestamp : option Q) (e : Env) (g : Game) :
  (frameDelta timestamp e g <= 1 # 10)%Q.
Proof.
  unfold frameDelta, JS.min.
  match goal with
  | |- context [Qle_bool ?a ?b] => destruct (Qle_bool a b) eqn:E
  end.
  - apply Qle_refl.
  - apply Qlt_le_weak, Qnot_le_lt. intros H.
    apply Qle_bool_iff in H. congruence.
Qed.

(** Whatever the clocks read, a frame's delta is at most a tenth of a
    second, so one frame moves an invader down by at most a tenth of its
    speed: a stall of the page does not make invaders jump. *)
Theorem frame_movement_bounded (timestamp : option Q) (e : Env) (g : Game)
    (inv : Invader) :
  (0 <= speed inv)%Q ->
  (frameDelta timestamp e g <= 1 # 10)%Q /\
  (y (update inv (frameDelta timestamp e g))
   <= y inv + speed inv * (1 # 10))%Q.
Proof.
  intros Hs. pose proof (frameDelta_le timestamp e g) as Hd.
  split; [exact Hd|].
  destruct (update_fields inv (frameDelta timestamp e g)) as (_ & _ & _ & ->).
  apply Qplus_le_r. rewrite !(Qmult_comm (speed inv)).
  now apply Qmult_le_compat_r.
Qed.

Lemma frame_movement_bounded_witness :
  let inv := Invader_new 7 400 "fast" (1 # 2) (1 # 2) in
  (y (update inv (frameDelta (Some 90000%Q) laterFrame beforeSubmit))
   <= y inv + speed inv * (1 # 10))%Q.
Proof.
  intros inv.
  destruct (frame_movement_bounded (Some 90000%Q) laterFrame beforeSubmit inv)
    as [_ H]; [discriminate | exact H].
Defined.

(** ** End of game, whatever the flag *)

(** The fields [endGame] leaves. *)
Lemma endGame_fields (didWin : bool) (g : Game) :
  let g' := endGame didWin g in
  screen g' = GameOverScreen /\
  timerId g' = false /\ gameLoopId g' = false /\ alertTimer g' = false /\
  gameAlert g' = None /\ invaders g' = [] /\
  scoreRight g' = scoreRight g /\ scoreWrong g' = scoreWrong g /\
  settings g' = settings g /\ multiplier g' = multiplier g /\
  currentAnswer g' = currentAnswer g /\
  timeLeft g' = timeLeft g /\ spawnInterval g' = spawnInterval g /\
  gameOverTitle g'
  = (if scoreRight g <? scoreWrong g then "You Lost!"
     else if didWin then "You Win!" else "Game Over!") /\
  winCelebration g' = (didWin && negb (scoreRight g <? scoreWrong g)) /\
  (winCelebration g' = true <-> gameOverTitle g' = "You Win!").
Proof.
  intros g'. subst g'.
  unfold endGame, finalizeEndGame, startWinCelebration, cleanup,
    stopGameForCelebration, stopWinCelebration.
  fields.
  destruct (scoreRight g <? scoreWrong g), didWin; fields;
    rewrite ?andb_true_r, ?andb_false_r; fields;
    try destruct (String.eqb (mode (settings g)) "score");
    repeat split; intros; try discriminate; reflexivity.
Qed.

(** [endGame] disarms the countdown, the frame loop and the alert, empties
    the active list, shows the game-over screen and leaves the counters,
    the settings, the multiplier and the pending input alone.  The title
    is You Lost! when the wrong counter exceeds the correct one, and
    otherwise You Win! or Game Over! by the flag; the win celebration runs
    exactly when the title is You Win!. *)
Theorem endGame_outcome (didWin : bool) (g : Game) :
  let g' := endGame didWin g in
  screen g' = GameOverScreen /\
  timerId g' = false /\ gameLoopId g' = false /\ alertTimer g' = false /\
  gameAlert g' = None /\ invaders g' = [] /\
  scoreRight g' = scoreRight g /\ scoreWrong g' = scoreWrong g /\
  settings g' = settings g /\ multiplier g' = multiplier g /\
  currentAnswer g' = currentAnswer g /\
  (gameOverTitle g' = "You Lost!" <-> scoreRight g < scoreWrong g) /\
  (gameOverTitle g' = "You Win!" <->
   didWin = true /\ scoreWrong g <= scoreRight g) /\
  (gameOverTitle g' = "Game Over!" <->
   didWin = false /\ scoreWrong g <= scoreRight g) /\
  (winCelebration g' = true <-> gameOverTitle g' = "You Win!").
Proof.
  intros g'. subst g'.
  pose proof (endGame_fields didWin g) as H. cbv zeta in H.
  destruct H as (Hs & Ht & Hl & Ha & Hal & Hi & Hr & Hw & Hset & Hm & Hc
                 & _ & _ & Htitle & _ & Hcel).
  repeat match goal with |- _ /\ _ => split end; try assumption;
    rewrite Htitle;
    destruct (scoreRight g <? scoreWrong g) eqn:E;
    [apply Z.ltb_lt in E | apply Z.ltb_ge in E
    |apply Z.ltb_lt in E | apply Z.ltb_ge in E
    |apply Z.ltb_lt in E | apply Z.ltb_ge in E];
    destruct didWin; split; intros; try discriminate; try lia;
    try reflexivity; try (split; [reflexivity | lia]);
    match goal with H : _ /\ _ |- _ => destruct H; try discriminate; lia end.
Qed.

(** ** What the input events do *)

Lemma input_effect_refl (g : Game) : input_effect g g.
Proof. unfold input_effect. repeat split. left. repeat split. now left. Qed.

Lemma scanFrom_lt (l : list Invader) (m : Z) (answer : option Z) (i : nat) :
  scanFrom 0 l m answer = Some i -> (i < length l)%nat.
Proof.
  destruct answer as [a|]; [|now rewrite scanFrom_NaN].
  intros H. apply scanFrom_Some in H as (j & -> & [(inv & Hl & _) _]).
  simpl. now apply lookup_lt_Some in Hl.
Qed.

Lemma checkAnswer_effect (g : Game) : input_effect g (checkAnswer g).
Proof.
  destruct (String.eqb (currentAnswer g) "") eqn:E.
  - apply String.eqb_eq in E. rewrite checkAnswer_empty by exact E.
    apply input_effect_refl.
  - apply String.eqb_neq in E.
    destruct (scanFrom 0 (invaders g) (multiplier g)
                (JS.parseInt (currentAnswer g))) as [i|] eqn:Hscan.
    + pose proof (scanFrom_lt _ _ _ _ Hscan) as Hi.
      rewrite (checkAnswer_hit g i E Hscan). cbv zeta.
      unfold input_effect, updateAnswerDisplay. fields.
      destruct (reaches_target g) eqn:Ht.
      * match goal with
        | |- context [endGame true ?g1] =>
            pose proof (endGame_fields true g1) as Hend
        end.
        cbv zeta in Hend.
        destruct Hend as (-> & -> & -> & _ & _ & -> & -> & -> & -> & ->
                          & _ & -> & -> & _).
        unfold showAlert. fields. repeat split. right. repeat split.
        intros Hnil. rewrite Hnil in Hi. simpl in Hi. lia.
      * unfold showAlert. fields. repeat split. left. repeat split.
        right. right. repeat split. now exists i.
    + rewrite (checkAnswer_miss g E Hscan).
      unfold input_effect, updateAnswerDisplay, showAlert. fields.
      repeat split. left. repeat split. right. left. now repeat split.
Qed.

Lemma input_effect_display (g g' : Game) :
  input_effect g g' -> input_effect g (updateAnswerDisplay g').
Proof. unfold input_effect, updateAnswerDisplay. now fields. Qed.

Lemma input_effect_answer (g : Game) (s : string) :
  input_effect g (set_currentAnswer s g).
Proof.
  unfold input_effect. fields. repeat split. left. repeat split. now left.
Qed.

Lemma handleKeypadInput_effect (key : string) (g : Game) :
  input_effect g (handleKeypadInput key g).
Proof.
  unfold handleKeypadInput. apply input_effect_display.
  destruct (is_digit_key key).
  - destruct (String.length (currentAnswer g) <? 5)%nat;
      [apply input_effect_answer | apply input_effect_refl].
  - destruct (String.eqb key "del"); [apply input_effect_answer|].
    destruct (String.eqb key "submit");
      [apply checkAnswer_effect | apply input_effect_refl].
Qed.

Lemma onKeydown_effect (key : string) (g : Game) :
  input_effect g (onKeydown key g).
Proof.
  unfold onKeydown. destruct (screen g); try apply input_effect_refl.
  destruct (is_digit_key key); [apply handleKeypadInput_effect|].
  destruct (String.eqb key "Enter"); [apply handleKeypadInput_effect|].
  destruct (String.eqb key "Backspace");
    [apply handleKeypadInput_effect | apply input_effect_refl].
Qed.

Lemma onKeypadClick_effect (key : option string) (g : Game) :
  input_effect g (onKeypadClick key g).
Proof.
  unfold onKeypadClick. destruct key as [k|]; [|apply input_effect_refl].
  destruct (String.eqb k ""); [apply input_effect_refl|].
  apply handleKeypadInput_effect.
Qed.

(** ** Fields of the frame, the countdown and the start *)

Lemma gameLoop_timers (timestamp : option Q) (e : Env) (g : Game) :
  gameLoopId (gameLoop timestamp e g) = true /\
  timerId (gameLoop timestamp e g) = timerId g /\
  timeLeft (gameLoop timestamp e g) = timeLeft g /\
  alertTimer (gameLoop timestamp e g) = alertTimer g /\
  gameAlert (gameLoop timestamp e g) = gameAlert g /\
  answerDisplay (gameLoop timestamp e g) = answerDisplay g /\
  winCelebration (gameLoop timestamp e g) = winCelebration g.
Proof.
  unfold gameLoop. rewrite missLoop_all. simpl.
  repeat split; frame_cases; reflexivity.
Qed.

Lemma timerTick_cases (g : Game) :
  (timeLeft g <= 1 /\
   timerTick g = endGame true (set_timeLeft (timeLeft g - 1) g)) \/
  (1 < timeLeft g /\ timerTick g = set_timeLeft (timeLeft g - 1) g).
Proof.
  unfold timerTick. fields.
  destruct (timeLeft g - 1 <=? 0) eqn:E.
  - left. apply Z.leb_le in E. split; [lia | reflexivity].
  - right. apply Z.leb_gt in E. split; [lia | reflexivity].
Qed.

Lemma positive_or_pos (n : option Z) (d : Z) : 1 <= d -> 1 <= positive_or n d.
Proof.
  intros Hd. unfold positive_or. destruct n as [k|]; [|exact Hd].
  destruct (k <=? 0) eqn:E; [exact Hd|]. apply Z.leb_gt in E. lia.
Qed.

Lemma getSettings_limit_pos (f : Form) (g : Game) :
  1 <= limit (settings (getSettings f g)).
Proof.
  unfold getSettings. fields. cbn [limit].
  destruct (String.eqb (default "time" (form_mode f)) "time");
    apply positive_or_pos; lia.
Qed.

Lemma startInit_timer (f : Form) (rMult : Q) (dateNow : Z) (g : Game) :
  timerId (startInit f rMult dateNow g)
  = String.eqb (mode (settings (getSettings f g))) "time" /\
  timeLeft (startInit f rMult dateNow g)
  = (if String.eqb (mode (settings (getSettings f g))) "time"
     then limit (settings (getSettings f g)) else timeLeft g) /\
  lastSpawnTime (startInit f rMult dateNow g) = dateNow - 2500 - 1 /\
  lastFrameTime (startInit f rMult dateNow g) = None /\
  answerDisplay (startInit f rMult dateNow g) = "0" /\
  gameAlert (startInit f rMult dateNow g) = None /\
  winCelebration (startInit f rMult dateNow g) = false.
Proof.
  repeat split; start_cases; try reflexivity;
    match goal with
    | H : String.eqb "" "" = false |- _ => discriminate H
    end.
Qed.

(** What [start] leaves, in terms of the form. *)
Lemma start_fields (f : Form) (rMult : Q) (dateNow : Z) (e : Env) (g : Game) :
  let g' := start f rMult dateNow e g in
  let time := String.eqb (mode (settings (getSettings f g))) "time" in
  screen g' = GameScreen /\ gameLoopId g' = true /\ timerId g' = time /\
  settings g' = settings (getSettings f g) /\
  scoreRight g' = 0 /\ currentAnswer g' = "" /\ answerDisplay g' = "0" /\
  timeLeft g'
  = (if time then limit (settings (getSettings f g)) else timeLeft g).
Proof.
  intros g' time. subst g' time. unfold start.
  destruct (gameLoop_unfold None e (startInit f rMult dateNow g))
    as (_ & _ & -> & _ & _ & -> & -> & -> & _).
  destruct (gameLoop_timers None e (startInit f rMult dateNow g))
    as (-> & -> & -> & _ & _ & -> & _).
  destruct (startInit_scores f rMult dateNow g) as (-> & _ & _ & -> & ->).
  destruct (startInit_timer f rMult dateNow g) as (-> & -> & _ & _ & -> & _).
  destruct (startInit_multiplier f rMult dateNow g) as (-> & _).
  repeat split.
Qed.

(** ** The counters *)

Lemma step_scores (g : Game) (ev : Event) :
  is_start ev = false ->
  scoreRight g <= scoreRight (step g ev) /\
  scoreWrong g <= scoreWrong (step g ev).
Proof.
  destruct ev as [f r d e| |ts e| | |key|key]; cbn [step is_start];
    try discriminate; intros _.
  - unfold showSettings, cleanup, stopWinCelebration. fields. lia.
  - destruct (gameLoopId g); [|lia].
    destruct (gameLoop_unfold (Some ts) e g) as (_ & -> & -> & _). lia.
  - destruct (timerId g); [|lia].
    destruct (timerTick_cases g) as [[_ ->]|[_ ->]]; [|fields; lia].
    pose proof (endGame_fields true (set_timeLeft (timeLeft g - 1) g)) as H.
    cbv zeta in H.
    destruct H as (_ & _ & _ & _ & _ & _ & -> & -> & _). fields. lia.
  - destruct (alertTimer g); [|lia]. unfold alertTimeout. fields. lia.
  - destruct (onKeydown_effect key g)
      as (_ & _ & _ & _
          & [(_ & _ & _ & [(-> & -> & _)|[(-> & -> & _)|(-> & -> & _)]])
            |(_ & _ & _ & _ & -> & -> & _)]); lia.
  - destruct (onKeypadClick_effect key g)
      as (_ & _ & _ & _
          & [(_ & _ & _ & [(-> & -> & _)|[(-> & -> & _)|(-> & -> & _)]])
            |(_ & _ & _ & _ & -> & -> & _)]); lia.
Qed.

(** Within a session neither counter ever decreases: the frames add the
    misses to the wrong counter, a submission adds one to one of the two
    counters, and nothing else touches them. *)
Theorem scores_never_decrease (evs : list Event) :
  forall g, in_session evs = true ->
            scoreRight g <= scoreRight (run g evs) /\
            scoreWrong g <= scoreWrong (run g evs).
Proof.
  induction evs as [|ev evs IH]; intros g H; [simpl; lia|].
  simpl in H. apply andb_true_iff in H as [Hev Hevs].
  apply negb_true_iff in Hev.
  destruct (step_scores g ev Hev) as [Hr Hw].
  destruct (IH (step g ev) Hevs) as [Hr' Hw'].
  unfold run in *. simpl. lia.
Qed.

Lemma scores_never_decrease_witness :
  scoreRight afterStart
  <= scoreRight (run afterStart (drop 1 randomSession)) /\
  scoreWrong afterStart
  <= scoreWrong (run afterStart (drop 1 randomSession)).
Proof.
  apply (scores_never_decrease (drop 1 randomSession) afterStart).
  reflexivity.
Defined.

(** ** Callbacks and sessions *)

Lemma reaches_target_false (g : Game) :
  reaches_target g = false -> mode (settings g) = "score" ->
  scoreRight g + 1 < limit (settings g).
Proof.
  unfold reaches_target. intros H Hm. rewrite Hm in H. simpl in H.
  now apply Z.leb_gt in H.
Qed.

Lemma step_session_inv (g : Game) (ev : Event) :
  session_inv g -> session_inv (step g ev).
Proof.
  intros Hinv. pose proof Hinv as (Hloop & Htimer & Hoff & Htime & Hscore).
  destruct ev as [f r d e| |ts e| | |key|key]; cbn [step].
  - pose proof (start_fields f r d e g) as H. cbv zeta in H.
    destruct H as (Hs & Hl & Ht & Hset & Hr & _ & _ & Htl).
    pose proof (getSettings_limit_pos f g) as Hpos.
    unfold session_inv. rewrite Hs, Hl, Ht, Hset, Hr, Htl.
    split; [tauto|]. split; [|split; [congruence|split]].
    + rewrite String.eqb_eq. tauto.
    + intros _ Hm. apply String.eqb_eq in Hm. now rewrite Hm.
    + intros _ _. lia.
  - unfold session_inv, showSettings, cleanup, stopWinCelebration. fields.
    repeat split; try congruence; try discriminate.
    intros [Hx _]. discriminate Hx.
  - destruct (gameLoopId g) eqn:El;
      [|exact Hinv].
    destruct (gameLoop_unfold (Some ts) e g)
      as (_ & _ & Hr & _ & _ & Hset & Hs & _).
    destruct (gameLoop_timers (Some ts) e g) as (Hl & Ht & Htl & _).
    assert (screen g = GameScreen) as Hg by now apply Hloop.
    unfold session_inv. rewrite Hr, Hset, Hs, Hl, Ht, Htl.
    split; [tauto|]. split; [exact Htimer|]. split; [congruence|].
    split; [exact Htime | exact Hscore].
  - destruct (timerId g) eqn:Et;
      [|exact Hinv].
    destruct (proj1 Htimer eq_refl) as [Hg Hm].
    destruct (timerTick_cases g) as [[_ ->]|[Hlt ->]].
    + pose proof (endGame_fields true (set_timeLeft (timeLeft g - 1) g))
        as H. cbv zeta in H.
      destruct H as (Hs & Ht & Hl & _ & _ & Hi & _).
      unfold session_inv. rewrite Hs, Ht, Hl, Hi.
      repeat split; try congruence; try discriminate.
      intros [Hx _]. discriminate Hx.
    + unfold session_inv. fields.
      split; [exact Hloop|]. split; [tauto|]. split; [exact Hoff|].
      split; [intros _ _; lia | exact Hscore].
  - destruct (alertTimer g);
      [|exact Hinv].
    unfold session_inv, alertTimeout. fields. exact Hinv.
  - pose proof (onKeydown_effect key g) as He. revert He.
    generalize (onKeydown key g). intros g' He.
    destruct He as (Hset & _ & Htl & _ & [He|He]).
    + destruct He as (Hs & Ht & Hl & Hsc).
      unfold session_inv. rewrite Hset, Htl, Hs, Ht, Hl.
      split; [exact Hloop|]. split; [exact Htimer|]. split; [|split].
      * intros Hn. specialize (Hoff Hn).
        destruct Hsc as [(_ & _ & ->)|[(_ & _ & ->)|(_ & _ & _ & i & Hi & _)]];
          try exact Hoff.
        rewrite Hoff in Hi. simpl in Hi. lia.
      * exact Htime.
      * intros Hg Hm. specialize (Hscore Hg Hm).
        destruct Hsc as [(-> & _)|[(-> & _)|(-> & _ & Hrt & _)]];
          try exact Hscore.
        now apply reaches_target_false.
    + destruct He as (Hs & Ht & Hl & Hi & _).
      unfold session_inv. rewrite Hs, Ht, Hl, Hi.
      repeat split; try congruence; try discriminate.
      intros [Hx _]. discriminate Hx.
  - pose proof (onKeypadClick_effect key g) as He. revert He.
    generalize (onKeypadClick key g). intros g' He.
    destruct He as (Hset & _ & Htl & _ & [He|He]).
    + destruct He as (Hs & Ht & Hl & Hsc).
      unfold session_inv. rewrite Hset, Htl, Hs, Ht, Hl.
      split; [exact Hloop|]. split; [exact Htimer|]. split; [|split].
      * intros Hn. specialize (Hoff Hn).
        destruct Hsc as [(_ & _ & ->)|[(_ & _ & ->)|(_ & _ & _ & i & Hi & _)]];
          try exact Hoff.
        rewrite Hoff in Hi. simpl in Hi. lia.
      * exact Htime.
      * intros Hg Hm. specialize (Hscore Hg Hm).
        destruct Hsc as [(-> & _)|[(-> & _)|(-> & _ & Hrt & _)]];
          try exact Hscore.
        now apply reaches_target_false.
    + destruct He as (Hs & Ht & Hl & Hi & _).
      unfold session_inv. rewrite Hs, Ht, Hl, Hi.
      repeat split; try congruence; try discriminate.
      intros [Hx _]. discriminate Hx.
Qed.

(** In every state of every run: the frame loop is armed exactly while
    the game screen is displayed, and the countdown exactly while it is
    displayed in timed mode; off the game screen the active list is empty;
    while a timed session runs the time left is at least 1, and while a
    score session runs the correct counter is below the target. *)
Theorem callbacks_armed_while_running (evs : list Event) :
  let g := run (showSettings Game_new) evs in
  (gameLoopId g = true <-> screen g = GameScreen) /\
  (timerId g = true <->
   screen g = GameScreen /\ mode (settings g) = "time") /\
  (screen g <> GameScreen -> invaders g = []) /\
  (screen g = GameScreen -> mode (settings g) = "time" -> 1 <= timeLeft g) /\
  (screen g = GameScreen -> mode (settings g) = "score" ->
   scoreRight g < limit (settings g)).
Proof.
  apply (run_invariant session_inv); [|exact step_session_inv].
  unfold session_inv. vm_compute.
  repeat split; intros; try discriminate; try congruence.
  all: match goal with H : _ /\ _ |- _ => destruct H; discriminate end.
Qed.

(** ** The first frame of a session *)

Lemma Invader_new_speed_le (v w : Z) (setting : string) (rx rs : Q) :
  unit_draw rs -> (speed (Invader_new v w setting rx rs) <= 180)%Q.
Proof.
  intros Hs. unfold Invader_new. cbn [speed].
  destruct (String.eqb setting "easy");
    [|destruct (String.eqb setting "fast")].
  - destruct (scaled_draw_range rs 30 30 Hs) as [_ H]; [reflexivity|]. lra.
  - destruct (scaled_draw_range rs 110 70 Hs) as [_ H]; [reflexivity|]. lra.
  - destruct (scaled_draw_range rs 60 60 Hs) as [_ H]; [reflexivity|]. lra.
Qed.

Lemma update_y_upper (inv : Invader) (delta : Q) :
  (0 <= speed inv)%Q -> (delta <= 1 # 10)%Q ->
  (y (update inv delta) <= y inv + speed inv * (1 # 10))%Q.
Proof.
  intros Hs Hd. destruct (update_fields inv delta) as (_ & _ & _ & ->).
  apply Qplus_le_r. rewrite !(Qmult_comm (speed inv)).
  now apply Qmult_le_compat_r.
Qed.

(** A freshly constructed invader is still above the play area after its
    first update, whatever the frame's delta. *)
Lemma new_invader_stays (v w h : Z) (setting : string) (rx rs delta : Q) :
  unit_draw rs -> (delta <= 1 # 10)%Q -> 0 <= h ->
  let inv := update (Invader_new v w setting rx rs) delta in
  (y inv <= -32)%Q /\ isOffScreen inv h = false.
Proof.
  intros Hs Hd Hh inv.
  assert (y inv <= -32)%Q as Hy.
  { subst inv.
    pose proof (Invader_new_speed_le v w setting rx rs Hs) as Hlt.
    pose proof (Invader_new_speed_pos v w setting rx rs (proj1 Hs)) as Hpos.
    pose proof (update_y_upper (Invader_new v w setting rx rs) delta
                  (Qlt_le_weak _ _ Hpos) Hd) as Hu.
    change (y (Invader_new v w setting rx rs)) with (-50)%Q in Hu. lra. }
  split; [exact Hy|].
  apply not_true_iff_false. rewrite isOffScreen_spec.
  assert (inject_Z 0 <= inject_Z h)%Q as Hq by (now rewrite <- Zle_Qle).
  change (inject_Z 0) with 0%Q in Hq. lra.
Qed.

(** [start] makes the first spawn immediate: when [Date.now()] has not
    gone backwards between [start] and its first frame, the session
    begins with exactly one invader, still above the play area, both
    counters at zero, an empty pending input, the spawn interval already
    lowered to 2450 and the spawn time recorded. *)
Theorem start_spawns_first_invader (f : Form) (rMult : Q) (dateNow : Z)
    (e : Env) (g : Game) :
  dateNow <= wallNow e -> unit_draw (rndSpeed e) -> 0 <= clientHeight e ->
  let g' := start f rMult dateNow e g in
  (exists inv, invaders g' = [inv] /\
               value inv = spawnValue (getSettings f g) e /\
               (y inv <= -32)%Q) /\
  scoreRight g' = 0 /\ scoreWrong g' = 0 /\ currentAnswer g' = "" /\
  spawnInterval g' = 2450 /\ lastSpawnTime g' = wallNow e /\
  screen g' = GameScreen.
Proof.
  intros Hnow Hs Hh g'. subst g'. unfold start.
  set (g0 := startInit f rMult dateNow g).
  destruct (startInit_scores f rMult dateNow g) as (Hr0 & Hw0 & Hi0 & Hc0 & Hs0).
  destruct (startInit_timer f rMult dateNow g) as (_ & _ & Hl0 & _).
  destruct (startInit_multiplier f rMult dateNow g) as (Hset0 & _).
  pose proof (startInit_spawnInterval f rMult dateNow g) as Hsi0.
  fold g0 in Hr0, Hw0, Hi0, Hc0, Hs0, Hl0, Hset0, Hsi0.
  assert ((spawnInterval g0 <=? wallNow e - lastSpawnTime g0) = true) as Hdue
    by (apply Z.leb_le; lia).
  destruct (gameLoop_unfold None e g0)
    as (Hi & Hw & Hr & Hsi & _ & _ & Hsc & Hc & _).
  rewrite spawnStep_invaders, Hdue, Hi0, app_nil_l in Hi, Hw.
  rewrite spawnStep_spawnInterval, Hdue, Hsi0 in Hsi.
  pose proof (gameLoop_lastSpawnTime None e g0) as Hl. rewrite Hdue in Hl.
  set (inv := update
                (Invader_new (spawnValue g0 e) (clientWidth e)
                   (speedSetting (settings g0)) (rndX e) (rndSpeed e))
                (frameDelta None e g0)) in *.
  destruct (new_invader_stays (spawnValue g0 e) (clientWidth e)
              (clientHeight e) (speedSetting (settings g0)) (rndX e)
              (rndSpeed e) (frameDelta None e g0) Hs
              (frameDelta_le None e g0) Hh) as [Hy Hoff].
  fold inv in Hy, Hoff.
  change (moved (frameDelta None e g0) [Invader_new (spawnValue g0 e)
            (clientWidth e) (speedSetting (settings g0)) (rndX e)
            (rndSpeed e)]) with [inv] in Hi, Hw.
  rewrite kept_one, Hoff in Hi. rewrite missed_one, Hoff in Hw.
  split.
  - exists inv. split; [exact Hi|]. split; [|exact Hy].
    subst inv. cbn [value update Invader_new]. unfold spawnValue.
    now rewrite Hset0.
  - rewrite Hr, Hw, Hc, Hsi, Hl, Hsc, Hr0, Hw0, Hc0, Hs0. now repeat split.
Qed.

Lemma start_spawns_first_invader_witness :
  scoreWrong (start scoreForm (1 # 2) 5000 firstFrame Game_new) = 0 /\
  spawnInterval (start scoreForm (1 # 2) 5000 firstFrame Game_new) = 2450.
Proof.
  destruct (start_spawns_first_invader scoreForm (1 # 2) 5000 firstFrame
              Game_new) as (_ & _ & Hw & _ & Hsi & _).
  - vm_compute. discriminate.
  - split; [discriminate | reflexivity].
  - vm_compute. discriminate.
  - split; [exact Hw | exact Hsi].
Defined.

(** ** The countdown *)

Lemma run_cons (g : Game) (ev : Event) (evs : list Event) :
  run g (ev :: evs) = run (step g ev) evs.
Proof. reflexivity. Qed.

Lemma ticks_running (n : nat) :
  forall g, timerId g = true -> Z.of_nat n < timeLeft g ->
            run g (replicate n EvTick)
            = set_timeLeft (timeLeft g - Z.of_nat n) g.
Proof.
  induction n as [|n IH]; intros g Ht Hn.
  - simpl. rewrite Z.sub_0_r. now destruct g.
  - cbn [replicate]. rewrite run_cons. cbn [step]. rewrite Ht.
    destruct (timerTick_cases g) as [[Hle _]|[_ ->]]; [lia|].
    rewrite IH by (fields; try exact Ht; lia).
    unfold set_timeLeft. fields. f_equal. lia.
Qed.

(** While the countdown is armed, [n] ticks with [n] below the time left
    only lower the time left by [n]; the tick that brings it to zero ends
    the game, with the outcome of [endGame(true)] on the counters as they
    are.  A timed session therefore lasts as many ticks as its limit,
    unless a restart ends it before. *)
Theorem countdown_ends_at_zero (n : nat) (g : Game) :
  timerId g = true ->
  (Z.of_nat n < timeLeft g ->
   run g (replicate n EvTick) = set_timeLeft (timeLeft g - Z.of_nat n) g) /\
  (timeLeft g = Z.of_nat (S n) ->
   let g' := run g (replicate (S n) EvTick) in
   g' = endGame true (set_timeLeft 0 g) /\
   screen g' = GameOverScreen /\ timerId g' = false /\
   gameOverTitle g'
   = (if scoreRight g <? scoreWrong g then "You Lost!" else "You Win!")) /\
  (forall f rMult dateNow e g0,
      mode (settings (getSettings f g0)) = "time" ->
      timerId (start f rMult dateNow e g0) = true /\
      timeLeft (start f rMult dateNow e g0) = timeLimit_of f /\
      1 <= timeLimit_of f).
Proof.
  intros Ht. split; [|split].
  - now apply ticks_running.
  - intros Hl g'. subst g'.
    assert (run g (replicate (S n) EvTick)
            = step (run g (replicate n EvTick)) EvTick) as ->.
    { change (S n) with (1 + n)%nat. rewrite Nat.add_comm, replicate_add.
      unfold run. now rewrite foldl_app. }
    rewrite ticks_running by (try exact Ht; lia).
    cbn [step]. fields. rewrite Ht.
    destruct (timerTick_cases (set_timeLeft (timeLeft g - Z.of_nat n) g))
      as [[_ ->]|[Hlt _]]; [|revert Hlt; fields; lia].
    fields.
    replace (timeLeft g - Z.of_nat n - 1) with 0 by lia.
    assert (set_timeLeft 0 (set_timeLeft (timeLeft g - Z.of_nat n) g)
            = set_timeLeft 0 g) as -> by reflexivity.
    split; [reflexivity|].
    pose proof (endGame_fields true (set_timeLeft 0 g)) as H. cbv zeta in H.
    destruct H as (-> & -> & _ & _ & _ & _ & _ & _ & _ & _ & _ & _ & _
                   & -> & _).
    now repeat split.
  - intros f r d e g0 Hm.
    pose proof (start_fields f r d e g0) as H. cbv zeta in H.
    destruct H as (_ & _ & -> & _ & _ & _ & _ & ->).
    rewrite Hm. cbn [String.eqb Ascii.eqb Bool.eqb].
    assert (limit (settings (getSettings f g0)) = timeLimit_of f) as ->.
    { revert Hm. unfold getSettings. fields. cbn [mode limit].
      intros ->. reflexivity. }
    repeat split.
    unfold timeLimit_of. apply positive_or_pos. lia.
Qed.

Lemma countdown_ends_at_zero_witness :
  run afterStart (replicate 3 EvTick) = set_timeLeft (60 - 3) afterStart.
Proof.
  destruct (countdown_ends_at_zero 3 afterStart) as [H _]; [reflexivity|].
  apply H. vm_compute. reflexivity.
Defined.

(** ** Composing the pending input *)

Lemma is_digit_key_single (c : ascii) :
  is_digit_key (String c "") = JS.is_digit c.
Proof. destruct c as [[] [] [] [] [] [] [] []]; reflexivity. Qed.

Lemma digit_val_range (c : ascii) :
  JS.is_digit c = true -> 0 <= JS.digit_val c <= 9.
Proof.
  unfold JS.is_digit, JS.digit_val. intros H.
  apply andb_true_iff in H as [H1 H2].
  apply N.leb_le in H1. apply N.leb_le in H2. lia.
Qed.

Lemma slice_append_char (s : string) (c : ascii) :
  JS.slice_0_m1 (s ++ String c "") = s.
Proof.
  induction s as [|c' s IH]; [reflexivity|].
  cbn [String.append JS.slice_0_m1]. rewrite IH.
  destruct s; reflexivity.
Qed.

Lemma length_append (s t : string) :
  String.length (s ++ t) = (String.length s + String.length t)%nat.
Proof. induction s as [|c s IH]; simpl; [reflexivity | now rewrite IH]. Qed.

Lemma all_digits_append (s t : string) :
  all_digits (s ++ t) = all_digits s && all_digits t.
Proof.
  induction s as [|c s IH]; [reflexivity|]. simpl.
  now rewrite IH, andb_assoc.
Qed.

Lemma all_digits_slice (s : string) :
  all_digits s = true -> all_digits (JS.slice_0_m1 s) = true.
Proof.
  induction s as [|c s IH]; [reflexivity|]. simpl. intros H.
  apply andb_true_iff in H as [Hc Hs].
  destruct s as [|c' s]; [reflexivity|].
  cbn [all_digits]. rewrite Hc. exact (IH Hs).
Qed.

Lemma length_slice (s : string) :
  (String.length (JS.slice_0_m1 s) <= String.length s)%nat.
Proof.
  induction s as [|c s IH]; [reflexivity|].
  destruct s as [|c' s]; [simpl; lia|].
  change (JS.slice_0_m1 (String c (String c' s)))
    with (String c (JS.slice_0_m1 (String c' s))).
  cbn [String.length] in *. lia.
Qed.

Lemma handleKeypadInput_del (g : Game) :
  handleKeypadInput "del" g
  = updateAnswerDisplay
      (set_currentAnswer (JS.slice_0_m1 (currentAnswer g)) g).
Proof. reflexivity. Qed.

Lemma handleKeypadInput_digit (c : ascii) (g : Game) :
  JS.is_digit c = true ->
  handleKeypadInput (String c "") g
  = updateAnswerDisplay
      (if (String.length (currentAnswer g) <? 5)%nat
       then set_currentAnswer (currentAnswer g ++ String c "") g
       else g).
Proof.
  intros Hc. unfold handleKeypadInput.
  now rewrite is_digit_key_single, Hc.
Qed.

(** A digit key appends its digit to the pending input while that is
    shorter than five characters and is ignored otherwise; the delete key
    removes the last character, so it undoes the digit key, and does
    nothing to an empty input. *)
Theorem digit_and_delete_keys (c : ascii) (g : Game) :
  JS.is_digit c = true ->
  ((String.length (currentAnswer g) < 5)%nat ->
   currentAnswer (handleKeypadInput (String c "") g)
   = (currentAnswer g ++ String c "")%string /\
   handleKeypadInput "del" (handleKeypadInput (String c "") g)
   = updateAnswerDisplay g) /\
  ((5 <= String.length (currentAnswer g))%nat ->
   handleKeypadInput (String c "") g = updateAnswerDisplay g) /\
  (currentAnswer g = "" -> handleKeypadInput "del" g = updateAnswerDisplay g).
Proof.
  intros Hc. split; [|split].
  - intros Hlen. apply Nat.ltb_lt in Hlen.
    rewrite handleKeypadInput_digit by exact Hc. rewrite Hlen. split.
    + unfold updateAnswerDisplay. now fields.
    + rewrite handleKeypadInput_del. unfold updateAnswerDisplay. fields.
      rewrite slice_append_char. now destruct g.
  - intros Hlen. apply Nat.ltb_ge in Hlen.
    rewrite handleKeypadInput_digit by exact Hc. now rewrite Hlen.
  - intros He. rewrite handleKeypadInput_del, He.
    unfold updateAnswerDisplay. fields. destruct g. simpl in He. now subst.
Qed.

Lemma digit_and_delete_keys_witness :
  handleKeypadInput "del" (handleKeypadInput "7" afterStart)
  = updateAnswerDisplay afterStart.
Proof.
  destruct (digit_and_delete_keys "7"%char afterStart) as [H _];
    [reflexivity|].
  apply H. vm_compute. lia.
Defined.

(** ** The pending input over a run *)

(** What one event does to the pending input: nothing, clear it, drop its
    last character, or append the event's digit key. *)
Lemma step_currentAnswer (g : Game) (ev : Event) :
  currentAnswer (step g ev) = currentAnswer g \/
  currentAnswer (step g ev) = "" \/
  currentAnswer (step g ev) = JS.slice_0_m1 (currentAnswer g) \/
  exists key, key_of ev = Some key /\ is_digit_key key = true /\
              (String.length (currentAnswer g) < 5)%nat /\
              currentAnswer (step g ev) = (currentAnswer g ++ key)%string.
Proof.
  assert (forall key, key_of ev = Some key ->
            currentAnswer (handleKeypadInput key g) = currentAnswer g \/
            currentAnswer (handleKeypadInput key g) = "" \/
            currentAnswer (handleKeypadInput key g)
            = JS.slice_0_m1 (currentAnswer g) \/
            exists key', key_of ev = Some key' /\ is_digit_key key' = true /\
              (String.length (currentAnswer g) < 5)%nat /\
              currentAnswer (handleKeypadInput key g)
              = (currentAnswer g ++ key')%string) as Hkey.
  { intros key Hev. rewrite handleKeypadInput_currentAnswer.
    destruct (is_digit_key key) eqn:Ek.
    - destruct (String.length (currentAnswer g) <? 5)%nat eqn:El;
        [|now left].
      right. right. right. exists key. apply Nat.ltb_lt in El.
      now repeat split.
    - destruct (String.eqb key "del"); [now right; right; left|].
      destruct (String.eqb key "submit"); [now right; left | now left]. }
  destruct ev as [f r d e| |ts e| | |key|key]; cbn [step].
  - right. left.
    pose proof (start_fields f r d e g) as H. cbv zeta in H.
    now destruct H as (_ & _ & _ & _ & _ & -> & _).
  - left. unfold showSettings, cleanup, stopWinCelebration. now fields.
  - left. destruct (gameLoopId g); [|reflexivity].
    now destruct (gameLoop_unfold (Some ts) e g)
      as (_ & _ & _ & _ & _ & _ & _ & -> & _).
  - left. destruct (timerId g); [|reflexivity].
    destruct (timerTick_cases g) as [[_ ->]|[_ ->]]; [|now fields].
    pose proof (endGame_fields true (set_timeLeft (timeLeft g - 1) g)) as H.
    cbv zeta in H.
    now destruct H as (_ & _ & _ & _ & _ & _ & _ & _ & _ & _ & -> & _).
  - left. destruct (alertTimer g); [|reflexivity].
    unfold alertTimeout. now fields.
  - unfold onKeydown. destruct (screen g); try now left.
    destruct (is_digit_key key) eqn:Ek; [now apply Hkey|].
    destruct (String.eqb key "Enter");
      [right; left; now rewrite handleKeypadInput_currentAnswer|].
    destruct (String.eqb key "Backspace"); [|now left].
    right. right. left. now rewrite handleKeypadInput_currentAnswer.
  - unfold onKeypadClick. destruct key as [k|]; [|now left].
    destruct (String.eqb k ""); [now left|]. now apply Hkey.
Qed.

Lemma short_key_single (key : string) :
  short_key key = true -> is_digit_key key = true ->
  exists c, key = String c "" /\ JS.is_digit c = true.
Proof.
  unfold short_key. intros Hs Hk. rewrite Hk in Hs.
  apply Nat.eqb_eq in Hs.
  destruct key as [|c [|c' rest]]; try discriminate Hs.
  exists c. split; [reflexivity|]. now rewrite <- is_digit_key_single.
Qed.

Lemma step_pending_ok (g : Game) (ev : Event) :
  short_keys ev = true ->
  pending_ok (currentAnswer g) -> pending_ok (currentAnswer (step g ev)).
Proof.
  intros Hshort [Hd Hl].
  destruct (step_currentAnswer g ev) as [->|[->|[->|(key & Hev & Hk & Hlt & ->)]]].
  - now split.
  - split; [reflexivity | simpl; lia].
  - split; [now apply all_digits_slice|].
    pose proof (length_slice (currentAnswer g)). lia.
  - assert (short_key key = true) as Hsk.
    { destruct ev as [| | | | |k|[k|]]; try discriminate Hev;
        injection Hev as ->; exact Hshort. }
    destruct (short_key_single key Hsk Hk) as (c & -> & Hc).
    split.
    + rewrite all_digits_append, Hd. simpl. now rewrite Hc.
    + rewrite length_append. simpl. lia.
Qed.

Lemma digits_value_from_bounds (s : string) :
  forall v, 0 <= v -> all_digits s = true ->
            v * 10 ^ Z.of_nat (String.length s) <= digits_value_from v s
            /\ digits_value_from v s
               < (v + 1) * 10 ^ Z.of_nat (String.length s).
Proof.
  induction s as [|c s IH]; intros v Hv Hs.
  - simpl. lia.
  - cbn [all_digits] in Hs. apply andb_true_iff in Hs as [Hc Hs].
    pose proof (digit_val_range c Hc) as Hdv.
    cbn [digits_value_from String.length].
    destruct (IH (10 * v + JS.digit_val c) ltac:(lia) Hs) as [Hlo Hhi].
    rewrite Nat2Z.inj_succ, Z.pow_succ_r by lia.
    pose proof (Z.pow_pos_nonneg 10 (Z.of_nat (String.length s))
                  ltac:(lia) ltac:(lia)) as Hp.
    split; nia.
Qed.

Lemma digits_from_all_digits (s : string) :
  forall v, all_digits s = true ->
            JS.digits_from (Some v) s = Some (digits_value_from v s).
Proof.
  induction s as [|c s IH]; intros v Hs; [reflexivity|].
  cbn [all_digits] in Hs. apply andb_true_iff in Hs as [Hc Hs].
  cbn [JS.digits_from digits_value_from]. rewrite Hc. cbn [default].
  now apply IH.
Qed.

(** [parseInt] reads a non-empty text of decimal digits as the number it
    writes. *)
Lemma parseInt_digits (s : string) :
  all_digits s = true -> s <> "" -> JS.parseInt s = Some (digits_value s).
Proof.
  intros Hs Hne. destruct s as [|c rest]; [contradiction|].
  cbn [all_digits] in Hs. apply andb_true_iff in Hs as [Hc Hrest].
  assert (JS.parseInt (String c rest)
          = JS.digits_from (Some (10 * 0 + JS.digit_val c)) rest) as ->.
  { revert Hc. destruct c as [[] [] [] [] [] [] [] []];
      try (intros Hc; vm_compute in Hc; discriminate Hc);
      intros _; reflexivity. }
  now rewrite digits_from_all_digits.
Qed.

(** When every digit key is one character long, as on a keyboard and on
    the keypad, the pending input is in every state of every run a text of
    at most five decimal digits; unless it is empty, [parseInt] reads it
    as the number it writes, which is below 100000. *)
Theorem pending_input_bounded (evs : list Event) :
  forallb short_keys evs = true ->
  let s := currentAnswer (run (showSettings Game_new) evs) in
  (String.length s <= 5)%nat /\ all_digits s = true /\
  (s = "" \/
   JS.parseInt s = Some (digits_value s) /\ 0 <= digits_value s < 100000).
Proof.
  intros Hshort s.
  assert (pending_ok s) as [Hd Hl].
  { subst s. induction evs as [|ev evs IH] using rev_ind.
    - split; [reflexivity | simpl; lia].
    - rewrite forallb_app in Hshort.
      apply andb_true_iff in Hshort as [Hevs Hev].
      simpl in Hev. rewrite andb_true_r in Hev.
      rewrite run_snoc. apply step_pending_ok; [exact Hev | now apply IH]. }
  split; [exact Hl|]. split; [exact Hd|].
  destruct (String.eqb s "") eqn:E; [left; now apply String.eqb_eq|right].
  apply String.eqb_neq in E. split; [now apply parseInt_digits|].
  destruct (digits_value_from_bounds s 0 ltac:(lia) Hd) as [Hlo Hhi].
  fold (digits_value s) in Hlo, Hhi.
  assert (10 ^ Z.of_nat (String.length s) <= 10 ^ 5)
    by (apply Z.pow_le_mono_r; lia).
  change (10 ^ 5) with 100000 in *. lia.
Qed.

Lemma pending_input_bounded_witness :
  (String.length (currentAnswer (run (showSettings Game_new) scoreSession))
   <= 5)%nat.
Proof.
  destruct (pending_input_bounded scoreSession) as [H _]; [reflexivity|].
  exact H.
Defined.

(** ** Typing and submitting *)

Lemma append_assoc (s t u : string) :
  ((s ++ t) ++ u = s ++ (t ++ u))%string.
Proof. induction s as [|c s IH]; simpl; [reflexivity | now rewrite IH]. Qed.

Lemma onKeydown_digit (c : ascii) (g : Game) :
  screen g = GameScreen -> JS.is_digit c = true ->
  (String.length (currentAnswer g) < 5)%nat ->
  onKeydown (String c "") g
  = updateAnswerDisplay
      (set_currentAnswer (currentAnswer g ++ String c "") g).
Proof.
  intros Hs Hc Hl. unfold onKeydown.
  rewrite Hs, is_digit_key_single, Hc, handleKeypadInput_digit by exact Hc.
  apply Nat.ltb_lt in Hl. now rewrite Hl.
Qed.

Lemma typing_run (s : string) :
  forall g, screen g = GameScreen -> all_digits s = true -> s <> "" ->
            (String.length (currentAnswer g) + String.length s <= 5)%nat ->
            run g (typing s)
            = updateAnswerDisplay
                (set_currentAnswer (currentAnswer g ++ s) g).
Proof.
  induction s as [|c s IH]; intros g Hg Hs Hne Hl; [contradiction|].
  cbn [all_digits] in Hs. apply andb_true_iff in Hs as [Hc Hs].
  cbn [typing String.length] in *. rewrite run_cons. cbn [step].
  rewrite onKeydown_digit by (try assumption; lia).
  destruct s as [|c' s]; [reflexivity|].
  rewrite IH; try assumption; try discriminate.
  - unfold updateAnswerDisplay. fields. now rewrite append_assoc.
  - unfold updateAnswerDisplay. fields. rewrite length_append.
    cbn [String.length] in *. lia.
Qed.

(** On the game screen, typing up to five digits into an empty pending
    input composes exactly those digits, shows them in the answer display
    and changes nothing else; [parseInt] then reads the number they
    write, so submitting compares that number with the invaders. *)
Theorem typing_composes_number (s : string) (g : Game) :
  screen g = GameScreen -> currentAnswer g = "" ->
  all_digits s = true -> s <> "" -> (String.length s <= 5)%nat ->
  let g' := run g (typing s) in
  g' = set_answerDisplay s (set_currentAnswer s g) /\
  JS.parseInt (currentAnswer g') = Some (digits_value s) /\
  scanFrom 0 (invaders g') (multiplier g') (JS.parseInt (currentAnswer g'))
  = scanFrom 0 (invaders g) (multiplier g) (Some (digits_value s)).
Proof.
  intros Hg He Hs Hne Hl g'. subst g'.
  rewrite typing_run by (try assumption; rewrite He; simpl; lia).
  rewrite He. cbn [String.append].
  assert (updateAnswerDisplay (set_currentAnswer s g)
          = set_answerDisplay s (set_currentAnswer s g)) as ->.
  { unfold updateAnswerDisplay. fields.
    apply String.eqb_neq in Hne. now rewrite Hne. }
  split; [reflexivity|]. fields.
  rewrite parseInt_digits by assumption. now split.
Qed.

Lemma typing_composes_number_witness :
  JS.parseInt (currentAnswer (run afterStart (typing "15"))) = Some 15.
Proof.
  refine (proj1 (proj2 (typing_composes_number "15" afterStart _ _ _ _ _))).
  - reflexivity.
  - reflexivity.
  - reflexivity.
  - discriminate.
  - vm_compute. lia.
Defined.

(** A submission always leaves the pending input empty and the answer
    display at 0.  With an empty pending input it shows no alert; with a
    non-empty one it shows Correct! when an invader matched and Wrong!
    otherwise, and arms the alert's timeout -- except for the match that
    ends the session, whose alert the teardown hides again. *)
Theorem submit_feedback (g : Game) :
  let g' := handleKeypadInput "submit" g in
  currentAnswer g' = "" /\ answerDisplay g' = "0" /\
  (currentAnswer g = "" ->
   gameAlert g' = gameAlert g /\ alertTimer g' = alertTimer g) /\
  (currentAnswer g <> "" ->
   match scanFrom 0 (invaders g) (multiplier g)
           (JS.parseInt (currentAnswer g)) with
   | Some _ =>
       if reaches_target g
       then gameAlert g' = None /\ alertTimer g' = false
       else gameAlert g' = Some ("Correct!", "correct") /\
            alertTimer g' = true
   | None => gameAlert g' = Some ("Wrong!", "wrong") /\ alertTimer g' = true
   end).
Proof.
  intros g'. subst g'.
  change (handleKeypadInput "submit" g)
    with (updateAnswerDisplay (checkAnswer g)).
  pose proof (checkAnswer_currentAnswer g) as Hc.
  unfold updateAnswerDisplay at 1 2. fields. rewrite Hc.
  split; [reflexivity|]. split; [reflexivity|]. split.
  - intros He. unfold updateAnswerDisplay. fields.
    now rewrite checkAnswer_empty.
  - intros Hne. unfold updateAnswerDisplay. fields.
    destruct (scanFrom 0 (invaders g) (multiplier g)
                (JS.parseInt (currentAnswer g))) as [i|] eqn:Hscan.
    + rewrite (checkAnswer_hit g i Hne Hscan). cbv zeta.
      unfold updateAnswerDisplay. fields.
      destruct (reaches_target g).
      * match goal with
        | |- context [endGame true ?g1] =>
            pose proof (endGame_fields true g1) as Hend
        end.
        cbv zeta in Hend.
        now destruct Hend as (_ & _ & _ & -> & -> & _).
      * unfold showAlert. fields. now split.
    + rewrite (checkAnswer_miss g Hne Hscan).
      unfold updateAnswerDisplay, showAlert. fields. now split.
Qed.

(** ** Values, multiplier and required answers over a run *)

Lemma Invader_new_ok (v w : Z) (setting : string) (rx rs : Q) :
  1 <= v <= 99 -> unit_draw rx -> unit_draw rs ->
  invader_ok (Invader_new v w setting rx rs).
Proof.
  intros Hv Hx Hs. unfold invader_ok.
  split; [exact Hv|]. split; [|split].
  - apply Invader_new_speed_pos, Hs.
  - now apply Invader_new_speed_le.
  - unfold Invader_new. cbn [x].
    pose proof (max_0_nonneg (inject_Z w - 80)) as Hm.
    pose proof (Qmult_le_0_compat _ _ (proj1 Hx) Hm). lra.
Qed.

Lemma update_ok (inv : Invader) (delta : Q) :
  invader_ok inv -> invader_ok (update inv delta).
Proof. now intros H. Qed.

Lemma spawnValue_1_99 (g : Game) (e : Env) :
  unit_draw (rndValue e) -> 1 <= spawnValue g e <= 99.
Proof.
  intros Hr. pose proof (spawnValue_range g e Hr) as H.
  destruct (String.eqb (difficulty (settings g)) "single"); lia.
Qed.

Lemma gameLoop_invaders_ok (timestamp : option Q) (e : Env) (g : Game) :
  env_draws_ok e -> Forall invader_ok (invaders g) ->
  Forall invader_ok (invaders (gameLoop timestamp e g)).
Proof.
  intros (Hv & Hx & Hs) Hall. apply Forall_forall. intros inv' Hin.
  apply gameLoop_invader_origin in Hin as (inv & -> & [Hin| ->]);
    apply update_ok.
  - now apply (proj1 (Forall_forall _ _) Hall).
  - apply Invader_new_ok; try assumption. now apply spawnValue_1_99.
Qed.

Lemma step_screen_stays (g : Game) (ev : Event) :
  is_start ev = false ->
  screen (step g ev) = GameScreen -> screen g = GameScreen.
Proof.
  destruct ev as [f r d e| |ts e| | |key|key]; cbn [step is_start];
    intros Hev; try discriminate Hev; clear Hev.
  - unfold showSettings, cleanup, stopWinCelebration. fields. discriminate.
  - destruct (gameLoopId g); [|trivial].
    now destruct (gameLoop_unfold (Some ts) e g)
      as (_ & _ & _ & _ & _ & _ & -> & _).
  - destruct (timerId g); [|trivial].
    destruct (timerTick_cases g) as [[_ ->]|[_ ->]]; [|now fields].
    pose proof (endGame_fields true (set_timeLeft (timeLeft g - 1) g)) as H.
    cbv zeta in H. destruct H as (-> & _). discriminate.
  - destruct (alertTimer g); [|trivial]. unfold alertTimeout. now fields.
  - destruct (onKeydown_effect key g)
      as (_ & _ & _ & _ & [(-> & _)|(-> & _)]); [trivial | discriminate].
  - destruct (onKeypadClick_effect key g)
      as (_ & _ & _ & _ & [(-> & _)|(-> & _)]); [trivial | discriminate].
Qed.

Lemma start_multiplier_range (f : Form) (rMult : Q) (dateNow : Z) (e : Env)
    (g : Game) :
  unit_draw rMult -> 1 <= multiplier (start f rMult dateNow e g) <= 12.
Proof.
  intros Hr. destruct (start_multiplier f rMult dateNow e g) as [_ ->].
  destruct (String.eqb (multiplierMode (settings (getSettings f g))) "fixed").
  - apply clampMultiplier_range.
  - unfold random_1_to.
    destruct (String.eqb (difficulty (settings (getSettings f g))) "single").
    + pose proof (floor_scaled_range 9 _ ltac:(lia) Hr). lia.
    + pose proof (floor_scaled_range 12 _ ltac:(lia) Hr). lia.
Qed.

Lemma step_play_inv (g : Game) (ev : Event) :
  draws_ok ev -> play_inv g -> play_inv (step g ev).
Proof.
  intros Hdraws [Hm Hall].
  destruct (is_start ev) eqn:Estart.
  - destruct ev as [f r d e| | | | | |]; try discriminate Estart.
    destruct Hdraws as [Hr He]. cbn [step]. split.
    + intros _. now apply start_multiplier_range.
    + unfold start. apply gameLoop_invaders_ok; [exact He|].
      destruct (startInit_scores f r d g) as (_ & _ & -> & _).
      apply Forall_nil_2.
  - split.
    + intros Hs. destruct (step_settings_multiplier g ev Estart) as [_ ->].
      apply Hm. now apply (step_screen_stays g ev).
    + destruct (is_frame ev) eqn:Eframe.
      * destruct ev as [| |ts e| | | |]; try discriminate Eframe.
        cbn [step]. destruct (gameLoopId g); [|exact Hall].
        now apply gameLoop_invaders_ok.
      * pose proof (step_invaders g ev Estart Eframe) as Hsub.
        apply Forall_forall. intros inv Hin.
        apply (proj1 (Forall_forall _ _) Hall).
        now apply (sublist_subseteq _ _ Hsub).
Qed.

(** When every draw of a run is a result of [Math.random()], every active
    invader in every state of the run has a value between 1 and 99, a
    positive speed of at most 180 and a position at least 10 from the left
    edge,
    and the multiplier is between 1 and 12 while invaders are active: the
    answer an invader requires is a positive number of at most four
    digits, so the five-digit pending input can always hold it. *)
Theorem required_answers_typeable (evs : list Event) :
  Forall draws_ok evs ->
  let g := run (showSettings Game_new) evs in
  forall inv, inv ∈ invaders g ->
    invader_ok inv /\ 1 <= multiplier g <= 12 /\
    1 <= value inv * multiplier g <= 1188.
Proof.
  intros Hdraws g.
  assert (session_inv g /\ play_inv g) as [Hsess [Hm Hall]].
  { subst g. induction evs as [|ev evs IH] using rev_ind.
    - split.
      + unfold session_inv. vm_compute.
        repeat split; intros; try discriminate; try congruence.
        all: match goal with H : _ /\ _ |- _ => destruct H; discriminate end.
      + split; [discriminate | apply Forall_nil_2].
    - apply Forall_app in Hdraws as [Hevs Hev].
      apply (proj1 (Forall_singleton draws_ok ev)) in Hev.
      destruct (IH Hevs) as [Hs Hp]. rewrite run_snoc. split.
      + now apply step_session_inv.
      + now apply step_play_inv. }
  intros inv Hin.
  pose proof (proj1 (Forall_forall _ _) Hall inv Hin) as Hok.
  assert (screen g = GameScreen) as Hs.
  { destruct Hsess as (_ & _ & Hoff & _).
    destruct (screen g) eqn:E; try reflexivity;
      rewrite Hoff in Hin by discriminate; now apply elem_of_nil in Hin. }
  specialize (Hm Hs). split; [exact Hok|]. split; [exact Hm|].
  destruct Hok as (Hv & _). nia.
Qed.

Lemma required_answers_typeable_witness :
  Forall (fun inv => 1 <= value inv * multiplier beforeSubmit <= 1188)
    (invaders beforeSubmit).
Proof.
  apply Forall_forall. intros inv Hin. rewrite beforeSubmit_run in *.
  refine (proj2 (proj2 (required_answers_typeable scoreSession _ inv Hin))).
  repeat constructor; try discriminate.
Defined.

(** ** The spawn interval in closed form *)

Lemma gameLoop_interval_ok (timestamp : option Q) (e : Env) (g : Game) :
  interval_ok g -> interval_ok (gameLoop timestamp e g).
Proof.
  intros Hg. unfold interval_ok.
  destruct (gameLoop_unfold timestamp e g) as (_ & _ & _ & -> & _).
  now apply spawnStep_interval_ok.
Qed.

(** Over any sequence of frames, the spawn interval is the interval it
    started from minus 50 for each spawn, but not below 600: from the 2500
    of [start] it reaches the floor with the 38th spawn and stays there. *)
Theorem spawn_interval_closed_form (fs : list (option Q * Env)) (g : Game) :
  interval_ok g ->
  spawnInterval (frames g fs)
  = Z.max 600 (spawnInterval g - 50 * Z.of_nat (spawns g fs)) /\
  (spawnInterval g = 2500 ->
   (spawnInterval (frames g fs) = 600 <-> (38 <= spawns g fs)%nat)).
Proof.
  intros Hg.
  assert (spawnInterval (frames g fs)
          = Z.max 600 (spawnInterval g - 50 * Z.of_nat (spawns g fs))) as Heq.
  { revert g Hg. induction fs as [|[ts e] fs IH]; intros g Hg.
    - destruct Hg as (k & Hk & Hs). simpl. lia.
    - unfold frames in *. cbn [foldl spawns fst snd].
      rewrite (IH (gameLoop ts e g)) by now apply gameLoop_interval_ok.
      destruct (gameLoop_unfold ts e g) as (_ & _ & _ & -> & _).
      rewrite spawnStep_spawnInterval.
      destruct Hg as (k & Hk & Hs).
      destruct (spawnInterval g <=? wallNow e - lastSpawnTime g);
        [|f_equal; lia].
      destruct (600 <? spawnInterval g) eqn:E;
        [apply Z.ltb_lt in E | apply Z.ltb_ge in E]; lia. }
  split; [exact Heq|]. intros H0. rewrite Heq, H0. lia.
Qed.

Lemma spawn_interval_closed_form_witness :
  spawnInterval (frames afterStart [(Some 1016%Q, laterFrame)])
  = Z.max 600 (spawnInterval afterStart
               - 50 * Z.of_nat (spawns afterStart
                                  [(Some 1016%Q, laterFrame)])).
Proof.
  refine (proj1 (spawn_interval_closed_form [(Some 1016%Q, laterFrame)]
                   afterStart _)).
  exists 37. split; [lia | reflexivity].
Defined.

(** ** The answer display *)

Lemma updateAnswerDisplay_ok (g : Game) : display_ok (updateAnswerDisplay g).
Proof. unfold display_ok, updateAnswerDisplay, shown. now fields. Qed.

Lemma handleKeypadInput_display_ok (key : string) (g : Game) :
  display_ok (handleKeypadInput key g).
Proof. unfold handleKeypadInput. apply updateAnswerDisplay_ok. Qed.

Lemma endGame_answerDisplay (didWin : bool) (g : Game) :
  answerDisplay (endGame didWin g) = answerDisplay g.
Proof.
  unfold endGame, finalizeEndGame, startWinCelebration, cleanup,
    stopGameForCelebration, stopWinCelebration.
  fields. destruct (scoreRight g <? scoreWrong g), didWin; now fields.
Qed.

Lemma step_display_ok (g : Game) (ev : Event) :
  display_ok g -> display_ok (step g ev).
Proof.
  intros Hg. destruct ev as [f r d e| |ts e| | |key|key]; cbn [step].
  - pose proof (start_fields f r d e g) as H. cbv zeta in H.
    destruct H as (_ & _ & _ & _ & _ & Hc & Hd & _).
    unfold display_ok. now rewrite Hc, Hd.
  - unfold display_ok, showSettings, cleanup, stopWinCelebration. now fields.
  - destruct (gameLoopId g); [|exact Hg].
    destruct (gameLoop_unfold (Some ts) e g)
      as (_ & _ & _ & _ & _ & _ & _ & Hc & _).
    destruct (gameLoop_timers (Some ts) e g) as (_ & _ & _ & _ & _ & Hd & _).
    unfold display_ok. now rewrite Hc, Hd.
  - destruct (timerId g); [|exact Hg].
    destruct (timerTick_cases g) as [[_ ->]|[_ ->]].
    + unfold display_ok. rewrite endGame_answerDisplay.
      pose proof (endGame_fields true (set_timeLeft (timeLeft g - 1) g)) as H.
      cbv zeta in H.
      destruct H as (_ & _ & _ & _ & _ & _ & _ & _ & _ & _ & -> & _).
      exact Hg.
    + exact Hg.
  - destruct (alertTimer g); [|exact Hg]. exact Hg.
  - unfold onKeydown. destruct (screen g); try exact Hg.
    destruct (is_digit_key key); [apply handleKeypadInput_display_ok|].
    destruct (String.eqb key "Enter"); [apply handleKeypadInput_display_ok|].
    destruct (String.eqb key "Backspace");
      [apply handleKeypadInput_display_ok | exact Hg].
  - unfold onKeypadClick. destruct key as [k|]; [|exact Hg].
    destruct (String.eqb k ""); [exact Hg|].
    apply handleKeypadInput_display_ok.
Qed.

(** Once a session has been started, the answer display shows the pending
    input, or 0 when the pending input is empty, in every later state:
    every operation that changes the pending input redisplays it. *)
Theorem answer_display_in_sync (f : Form) (rMult : Q) (dateNow : Z) (e : Env)
    (g : Game) (evs : list Event) :
  let g' := run (start f rMult dateNow e g) evs in
  answerDisplay g'
  = (if String.eqb (currentAnswer g') "" then "0" else currentAnswer g').
Proof.
  intros g'. subst g'. change (display_ok (run (start f rMult dateNow e g) evs)).
  induction evs as [|ev evs IH] using rev_ind.
  - pose proof (start_fields f rMult dateNow e g) as H. cbv zeta in H.
    destruct H as (_ & _ & _ & _ & _ & Hc & Hd & _).
    unfold display_ok, run. simpl foldl. now rewrite Hc, Hd.
  - rewrite run_snoc. now apply step_display_ok.
Qed.

(** ** A new session and the one before *)

Lemma startInit_forgets (f : Form) (rMult : Q) (dateNow : Z) (g1 g2 : Game) :
  forget_leftovers (startInit f rMult dateNow g1)
  = forget_leftovers (startInit f rMult dateNow g2).
Proof.
  unfold forget_leftovers, startInit, setMultiplier, getSettings, cleanup,
    stopWinCelebration, updateAnswerDisplay.
  fields.
  repeat match goal with
    | |- context [if ?b then _ else _] =>
        lazymatch b with
        | context [if _ then _ else _] => fail
        | _ => destruct b
        end; fields
    end;
    reflexivity.
Qed.

Lemma gameLoop_forgets (timestamp : option Q) (e : Env) (g : Game) :
  gameLoop timestamp e (forget_leftovers g)
  = forget_leftovers (gameLoop timestamp e g).
Proof.
  unfold gameLoop. rewrite !missLoop_all.
  unfold forget_leftovers, frameDelta. frame_cases; reflexivity.
Qed.

(** A new session does not depend on the state the controller was in:
    whatever happened before, [start] with the same form, draws and clock
    readings leaves the same state, up to the game-over title, which it
    does not touch, and, outside the timed mode, the time left, which it
    does not set. *)
Theorem start_forgets_previous_session (f : Form) (rMult : Q) (dateNow : Z)
    (e : Env) (g1 g2 : Game) :
  forget_leftovers (start f rMult dateNow e g1)
  = forget_leftovers (start f rMult dateNow e g2) /\
  (mode (settings (getSettings f g1)) = "time" ->
   set_gameOverTitle "" (start f rMult dateNow e g1)
   = set_gameOverTitle "" (start f rMult dateNow e g2)).
Proof.
  assert (forget_leftovers (start f rMult dateNow e g1)
          = forget_leftovers (start f rMult dateNow e g2)) as Heq.
  { unfold start. rewrite <- !gameLoop_forgets.
    now rewrite (startInit_forgets f rMult dateNow g1 g2). }
  split; [exact Heq|]. intros Hm.
  pose proof (start_fields f rMult dateNow e g1) as H1.
  pose proof (start_fields f rMult dateNow e g2) as H2.
  cbv zeta in H1, H2.
  destruct H1 as (_ & _ & _ & _ & _ & _ & _ & Ht1).
  destruct H2 as (_ & _ & _ & _ & _ & _ & _ & Ht2).
  assert (mode (settings (getSettings f g2)) = "time") as Hm2 by exact Hm.
  rewrite Hm in Ht1. rewrite Hm2 in Ht2.
  cbn [String.eqb Ascii.eqb Bool.eqb] in Ht1, Ht2.
  assert (limit (settings (getSettings f g1))
          = limit (settings (getSettings f g2))) as Hl by reflexivity.
  revert Heq Ht1 Ht2. rewrite Hl.
  generalize (start f rMult dateNow e g1) (start f rMult dateNow e g2).
  intros [] []. unfold forget_leftovers, set_gameOverTitle, set_timeLeft.
  fields. intros Heq -> ->. injection Heq as <-. now repeat f_equal.
Qed.

(** ** The alert and the celebration *)

Lemma endGame_overlay (g : Game) : overlay_inv (endGame true g).
Proof.
  pose proof (endGame_fields true g) as H. cbv zeta in H.
  destruct H as (Hs & _ & _ & _ & Ha & _ & _ & _ & _ & _ & _ & _ & _ & _
                 & _ & Hc).
  split; [now left|]. intros Hw. split; [exact Hs | now apply Hc].
Qed.

Lemma overlay_display (g : Game) :
  overlay_inv g -> overlay_inv (updateAnswerDisplay g).
Proof. unfold overlay_inv, updateAnswerDisplay. now fields. Qed.

Lemma overlay_answer (s : string) (g : Game) :
  overlay_inv g -> overlay_inv (set_currentAnswer s g).
Proof. unfold overlay_inv. now fields. Qed.

Lemma overlay_showAlert (message type : string) (g : Game) :
  overlay_inv g -> overlay_inv (showAlert message type g).
Proof.
  unfold overlay_inv, showAlert. fields. intros [_ H]. split; [now right|].
  exact H.
Qed.

Lemma checkAnswer_overlay (g : Game) :
  overlay_inv g -> overlay_inv (checkAnswer g).
Proof.
  intros Hg. destruct (String.eqb (currentAnswer g) "") eqn:E.
  - apply String.eqb_eq in E. now rewrite checkAnswer_empty.
  - apply String.eqb_neq in E.
    destruct (scanFrom 0 (invaders g) (multiplier g)
                (JS.parseInt (currentAnswer g))) as [i|] eqn:Hscan.
    + rewrite (checkAnswer_hit g i E Hscan). cbv zeta.
      apply overlay_display, overlay_answer.
      destruct (reaches_target g); [apply endGame_overlay|].
      apply overlay_showAlert. revert Hg. unfold overlay_inv. now fields.
    + rewrite (checkAnswer_miss g E Hscan).
      apply overlay_display, overlay_answer, overlay_showAlert.
      revert Hg. unfold overlay_inv. now fields.
Qed.

Lemma handleKeypadInput_overlay (key : string) (g : Game) :
  overlay_inv g -> overlay_inv (handleKeypadInput key g).
Proof.
  intros Hg. unfold handleKeypadInput. apply overlay_display.
  destruct (is_digit_key key).
  - destruct (String.length (currentAnswer g) <? 5)%nat;
      [now apply overlay_answer | exact Hg].
  - destruct (String.eqb key "del"); [now apply overlay_answer|].
    destruct (String.eqb key "submit");
      [now apply checkAnswer_overlay | exact Hg].
Qed.

Lemma gameLoop_overlay (timestamp : option Q) (e : Env) (g : Game) :
  overlay_inv g -> overlay_inv (gameLoop timestamp e g).
Proof.
  destruct (gameLoop_unfold timestamp e g)
    as (_ & _ & _ & _ & _ & _ & Hs & _ & Ht).
  destruct (gameLoop_timers timestamp e g) as (_ & _ & _ & Ha & Hal & _ & Hw).
  unfold overlay_inv. now rewrite Hs, Ht, Ha, Hal, Hw.
Qed.

Lemma step_overlay_inv (g : Game) (ev : Event) :
  overlay_inv g -> overlay_inv (step g ev).
Proof.
  intros Hg. destruct ev as [f r d e| |ts e| | |key|key]; cbn [step].
  - unfold start. apply gameLoop_overlay.
    destruct (startInit_timer f r d g) as (_ & _ & _ & _ & _ & Ha & Hw).
    split; [now left|]. rewrite Hw. discriminate.
  - unfold overlay_inv, showSettings, cleanup, stopWinCelebration. fields.
    split; [now left | discriminate].
  - destruct (gameLoopId g); [now apply gameLoop_overlay | exact Hg].
  - destruct (timerId g); [|exact Hg].
    destruct (timerTick_cases g) as [[_ ->]|[_ ->]];
      [apply endGame_overlay | exact Hg].
  - destruct (alertTimer g); [|exact Hg].
    revert Hg. unfold overlay_inv, alertTimeout. fields.
    intros [_ H]. split; [now left | exact H].
  - unfold onKeydown. destruct (screen g) eqn:Es; try exact Hg.
    destruct (is_digit_key key); [now apply handleKeypadInput_overlay|].
    destruct (String.eqb key "Enter"); [now apply handleKeypadInput_overlay|].
    destruct (String.eqb key "Backspace");
      [now apply handleKeypadInput_overlay | exact Hg].
  - unfold onKeypadClick. destruct key as [k|]; [|exact Hg].
    destruct (String.eqb k ""); [exact Hg|].
    now apply handleKeypadInput_overlay.
Qed.

(** In every state of every run, an alert that is shown has its timeout
    armed, so no alert stays on the screen for good, and the win
    celebration runs only on the game-over screen under the title
    You Win!: a session that is running or was lost never celebrates. *)
Theorem overlays_well_behaved (evs : list Event) :
  let g := run (showSettings Game_new) evs in
  (gameAlert g = None \/ alertTimer g = true) /\
  (winCelebration g = true ->
   screen g = GameOverScreen /\ gameOverTitle g = "You Win!").
Proof.
  apply (run_invariant overlay_inv); [|exact step_overlay_inv].
  split; [now left | discriminate].
Qed.

(** ** The pace of the spawns *)

(** Only [start] and the frames assign the time of the last spawn. *)
Lemma step_lastSpawnTime (g : Game) (ev : Event) :
  is_start ev = false -> is_frame ev = false ->
  lastSpawnTime (step g ev) = lastSpawnTime g.
Proof.
  destruct ev as [f r d e| |ts e| | |key|key]; cbn [step is_start is_frame];
    try discriminate; intros _ _; controller_cases.
Qed.

Lemma moved_values (delta : Q) (l : list Invader) :
  value <$> moved delta l = value <$> l.
Proof.
  unfold moved. induction l as [|a l IH]; [reflexivity|].
  rewrite !fmap_cons. now f_equal.
Qed.

(** A frame whose spawn test fails. *)
Lemma gameLoop_quiet (timestamp : option Q) (e : Env) (g : Game) :
  (spawnInterval g <=? wallNow e - lastSpawnTime g) = false ->
  spawnInterval (gameLoop timestamp e g) = spawnInterval g /\
  lastSpawnTime (gameLoop timestamp e g) = lastSpawnTime g /\
  (value <$> invaders (gameLoop timestamp e g))
  `sublist_of` (value <$> invaders g).
Proof.
  intros Hnot.
  destruct (gameLoop_unfold timestamp e g) as (Hl & _ & _ & Hs & _).
  rewrite Hs, Hl, spawnStep_spawnInterval, gameLoop_lastSpawnTime,
    spawnStep_invaders, Hnot.
  split; [reflexivity|]. split; [reflexivity|].
  rewrite <- (moved_values (frameDelta timestamp e g) (invaders g)).
  apply (fmap_sublist value). unfold kept. apply sublist_filter.
Qed.

(** An event of a session that does not spawn. *)
Lemma step_quiet (g : Game) (ev : Event) :
  is_start ev = false -> spawn_due g ev = false ->
  spawnInterval (step g ev) = spawnInterval g /\
  lastSpawnTime (step g ev) = lastSpawnTime g /\
  (value <$> invaders (step g ev)) `sublist_of` (value <$> invaders g).
Proof.
  intros Hstart Hdue. destruct (is_frame ev) eqn:Eframe.
  - destruct ev as [| |ts e| | | |]; try discriminate Eframe.
    cbn [step spawn_due] in *. destruct (gameLoopId g); [|now repeat split].
    now apply gameLoop_quiet.
  - split; [now apply step_spawnInterval|].
    split; [now apply step_lastSpawnTime|].
    apply (fmap_sublist value). now apply step_invaders.
Qed.

Lemma spawn_free_run (evs : list Event) :
  forall g, spawn_free g evs = true ->
            spawnInterval (run g evs) = spawnInterval g /\
            lastSpawnTime (run g evs) = lastSpawnTime g /\
            (value <$> invaders (run g evs))
            `sublist_of` (value <$> invaders g).
Proof.
  induction evs as [|ev evs IH]; intros g Hfree; [now repeat split|].
  cbn [spawn_free] in Hfree.
  apply andb_true_iff in Hfree as [Hfree Hrest].
  apply andb_true_iff in Hfree as [Hstart Hdue].
  apply negb_true_iff in Hstart, Hdue.
  destruct (step_quiet g ev Hstart Hdue) as (Hs & Hl & Hsub).
  destruct (IH (step g ev) Hrest) as (Hs' & Hl' & Hsub').
  rewrite run_cons, Hs', Hl', Hs, Hl.
  split; [reflexivity|]. split; [reflexivity|].
  now transitivity (value <$> invaders (step g ev)).
Qed.

(** Frames that read [Date.now()] before the interval has passed do not
    spawn. *)
Lemma early_frames_spawn_free (t : Z) (evs : list Event) :
  forall g, t <= lastSpawnTime g + spawnInterval g ->
            in_session evs = true ->
            forallb (frame_before t) evs = true ->
            spawn_free g evs = true.
Proof.
  induction evs as [|ev evs IH]; intros g Ht Hsess Hearly; [reflexivity|].
  unfold in_session in Hsess. cbn [forallb] in Hsess, Hearly.
  apply andb_true_iff in Hsess as [Hstart Hsess].
  apply andb_true_iff in Hearly as [Hev Hearly].
  assert (spawn_due g ev = false) as Hdue.
  { destruct ev as [| |ts e| | | |]; try reflexivity.
    cbn [spawn_due frame_before] in *. apply Z.ltb_lt in Hev.
    apply andb_false_iff. right. apply Z.leb_gt. lia. }
  cbn [spawn_free]. rewrite Hstart, Hdue. cbn [negb andb].
  apply negb_true_iff in Hstart.
  destruct (step_quiet g ev Hstart Hdue) as (Hs & Hl & _).
  apply IH; [rewrite Hs, Hl; exact Ht | exact Hsess | exact Hearly].
Qed.

(** Within a session, two spawns are at least 600 milliseconds of
    wall-clock time apart.  A frame that spawns records its [Date.now()]
    and leaves an interval of at least 600.  Whatever events come next, as
    long as none of them starts a session: while none of their frames
    spawns, the interval and the recorded time stay as they are and no
    invader is added (the values in the active list are a sub-list of
    those the spawning frame left), so a frame that then passes the spawn
    test reads [Date.now()] at least the interval, hence at least 600
    milliseconds, after the spawning frame did; and none of their frames
    spawns when each of them reads [Date.now()] less than 600 milliseconds
    after the spawning frame did. *)
Theorem spawns_are_paced (ts1 : option Q) (e1 : Env) (g : Game)
    (evs : list Event) :
  interval_ok g ->
  spawnInterval g <= wallNow e1 - lastSpawnTime g ->
  let g1 := gameLoop ts1 e1 g in
  let g2 := run g1 evs in
  600 <= spawnInterval g1 /\
  lastSpawnTime g1 = wallNow e1 /\
  (spawn_free g1 evs = true ->
   spawnInterval g2 = spawnInterval g1 /\
   lastSpawnTime g2 = wallNow e1 /\
   (value <$> invaders g2) `sublist_of` (value <$> invaders g1) /\
   forall ev2, spawn_due g2 ev2 = true ->
               exists ts2 e2, ev2 = EvFrame ts2 e2 /\
                              600 <= spawnInterval g1
                              <= wallNow e2 - wallNow e1) /\
  (in_session evs = true ->
   forallb (frame_before (wallNow e1 + 600)) evs = true ->
   spawn_free g1 evs = true).
Proof.
  intros Hg Hdue g1 g2.
  pose proof (gameLoop_interval_ok ts1 e1 g Hg) as (k & Hk & Hs1).
  fold g1 in Hs1.
  pose proof (gameLoop_lastSpawnTime ts1 e1 g) as Hl1. fold g1 in Hl1.
  apply Z.leb_le in Hdue. rewrite Hdue in Hl1.
  split; [lia|]. split; [exact Hl1|]. split.
  - intros Hfree.
    destruct (spawn_free_run evs g1 Hfree) as (Hs2 & Hl2 & Hsub).
    fold g2 in Hs2, Hl2, Hsub.
    split; [exact Hs2|]. split; [congruence|]. split; [exact Hsub|].
    intros ev2 Hdue2.
    destruct ev2 as [| |ts2 e2| | | |]; try discriminate Hdue2.
    exists ts2, e2. split; [reflexivity|].
    cbn [spawn_due] in Hdue2. apply andb_true_iff in Hdue2 as [_ Hdue2].
    apply Z.leb_le in Hdue2. lia.
  - intros Hsess Hearly.
    apply (early_frames_spawn_free (wallNow e1 + 600)); [lia | exact Hsess|].
    exact Hearly.
Qed.

Lemma spawns_are_paced_witness :
  let g1 := gameLoop (Some 1016%Q) laterFrame afterStart in
  let evs := [EvKeydown "2"; EvFrame 1032 (with_rndValue 0 laterFrame);
              EvTick; EvFrame 1048 (with_rndValue 0 laterFrame)] in
  spawn_free g1 evs = true /\ lastSpawnTime (run g1 evs) = 8000.
Proof.
  intros g1 evs.
  destruct (spawns_are_paced (Some 1016%Q) laterFrame afterStart evs)
    as (_ & _ & Hquiet & Hearly).
  - exists 37. split; [lia | reflexivity].
  - vm_compute. discriminate.
  - assert (spawn_free g1 evs = true) as Hfree
      by (apply Hearly; vm_compute; reflexivity).
    split; [exact Hfree|].
    now destruct (Hquiet Hfree) as (_ & Hl & _).
Defined.

(** ** The particles of the win celebration *)

Section Particles.

Import Celebration.

Lemma expired_spec (p : Particle) :
  0 < life p -> (expired p = true <-> life p <= age p).
Proof.
  intros Hl. unfold expired. rewrite Qle_bool_iff.
  destruct (life p) as [|n|n] eqn:E; try lia.
  unfold Qle, Qminus, Qplus, Qopp, Qdiv, Qmult, Qinv, inject_Z. simpl.
  rewrite ?Z.mul_1_r, ?Pos.mul_1_l, ?Pos.mul_1_r. lia.
Qed.

Lemma advance_fields (p : Particle) :
  life (advance p) = life p /\ age (advance p) = age p + 1.
Proof. now split. Qed.

Lemma advance_iter_fields (k : nat) (p : Particle) :
  life (Nat.iter k advance p) = life p /\
  age (Nat.iter k advance p) = age p + Z.of_nat k.
Proof.
  induction k as [|k [IHl IHa]]; [simpl; split; [reflexivity | lia]|].
  change (Nat.iter (S k) advance p) with (advance (Nat.iter k advance p)).
  destruct (advance_fields (Nat.iter k advance p)) as [-> ->].
  rewrite IHl, IHa. split; [reflexivity | lia].
Qed.

(** With the particles split into the part still to visit and the part
    already visited, the loop advances the first part and drops what has
    expired. *)
Lemma particleLoop_app (l1 : list Particle) :
  forall l2,
    particleLoop (length l1) (l1 ++ l2)
    = filter (fun p => expired p = false) (advance <$> l1) ++ l2.
Proof.
  induction l1 as [|a l1 IH] using rev_ind; intros l2; [reflexivity|].
  rewrite length_app, Nat.add_comm. cbn [length Nat.add particleLoop].
  rewrite <- app_assoc. cbn [app].
  rewrite list_lookup_middle by reflexivity.
  replace (<[length l1:=advance a]> (l1 ++ a :: l2))
    with (l1 ++ advance a :: l2)
    by (replace (length l1) with (length l1 + 0)%nat by lia;
        now rewrite insert_app_r).
  rewrite fmap_app, filter_app. cbn [fmap list_fmap].
  rewrite filter_cons, filter_nil.
  destruct (expired (advance a)) eqn:E.
  - rewrite delete_middle, IH. case_decide; [discriminate|].
    now rewrite app_nil_r.
  - rewrite IH. case_decide; [|congruence]. now rewrite <- app_assoc.
Qed.

Lemma step_filter (l : list Particle) :
  fst (step l) = filter (fun p => expired p = false) (advance <$> l).
Proof.
  unfold step. cbn [fst].
  rewrite <- (app_nil_r l) at 2. rewrite particleLoop_app.
  now rewrite app_nil_r.
Qed.

Lemma step_app (l1 l2 : list Particle) :
  fst (step (l1 ++ l2)) = fst (step l1) ++ fst (step l2).
Proof. now rewrite !step_filter, fmap_app, filter_app. Qed.

Lemma steps_app (k : nat) (l1 l2 : list Particle) :
  steps k (l1 ++ l2) = steps k l1 ++ steps k l2.
Proof.
  induction k as [|k IH]; [reflexivity|].
  change (steps (S k) (l1 ++ l2)) with (fst (step (steps k (l1 ++ l2)))).
  now rewrite IH, step_app.
Qed.

Lemma steps_nil (k : nat) : steps k [] = [].
Proof.
  induction k as [|k IH]; [reflexivity|].
  change (steps (S k) []) with (fst (step (steps k []))).
  now rewrite IH.
Qed.

Lemma steps_one (k : nat) (p : Particle) :
  0 <= age p < life p ->
  steps k [p]
  = if age p + Z.of_nat k <? life p then [Nat.iter k advance p] else [].
Proof.
  intros Hp. induction k as [|k IH].
  - change (steps 0 [p]) with [p]. change (Nat.iter 0 advance p) with p.
    replace (age p + Z.of_nat 0 <? life p) with true; [reflexivity|].
    symmetry. apply Z.ltb_lt. lia.
  - change (steps (S k) [p]) with (fst (step (steps k [p]))).
    rewrite IH, step_filter.
    destruct (age p + Z.of_nat k <? life p) eqn:Ek.
    + apply Z.ltb_lt in Ek. cbn [fmap list_fmap].
      rewrite filter_cons, filter_nil.
      destruct (advance_iter_fields k p) as [Hl Ha].
      destruct (advance_fields (Nat.iter k advance p)) as [Hl' Ha'].
      pose proof (expired_spec (advance (Nat.iter k advance p))) as Hexp.
      rewrite Hl', Ha', Hl, Ha in Hexp.
      destruct (age p + Z.of_nat (S k) <? life p) eqn:Ek';
        [apply Z.ltb_lt in Ek' | apply Z.ltb_ge in Ek'].
      * case_decide as Hd; [reflexivity|].
        apply not_false_is_true in Hd. apply Hexp in Hd; lia.
      * case_decide as Hd; [|reflexivity].
        assert (expired (advance (Nat.iter k advance p)) = true) as Ht
          by (apply Hexp; lia).
        congruence.
    + apply Z.ltb_ge in Ek.
      replace (age p + Z.of_nat (S k) <? life p) with false; [reflexivity|].
      symmetry. apply Z.ltb_ge. lia.
Qed.

Lemma steps_filter (k : nat) (l : list Particle) :
  Forall (fun p => 0 <= age p < life p) l ->
  steps k l
  = Nat.iter k advance
      <$> filter (fun p => age p + Z.of_nat k < life p) l.
Proof.
  induction l as [|p l IH]; intros Hall; [apply steps_nil|].
  apply Forall_cons in Hall as [Hp Hall].
  change (p :: l) with ([p] ++ l).
  rewrite steps_app, steps_one, IH, filter_app, fmap_app by assumption.
  f_equal. rewrite filter_cons, filter_nil.
  destruct (age p + Z.of_nat k <? life p) eqn:E;
    [apply Z.ltb_lt in E | apply Z.ltb_ge in E];
    case_decide; try lia; reflexivity.
Qed.

Lemma newParticle_life (cx cy cosA sinA rSpeed rLift rLife rSize rColor
    rGravity : Q) :
  unit_draw rLife ->
  let p := newParticle cx cy cosA sinA rSpeed rLift rLife rSize rColor
             rGravity in
  age p = 0 /\ 60 <= life p <= 119.
Proof.
  intros Hr p. subst p. unfold newParticle. cbn [age life].
  pose proof (floor_scaled_range 60 rLife ltac:(lia) Hr) as H.
  change (inject_Z 60) with 60%Q in H. split; [reflexivity | lia].
Qed.

Lemma filter_all_expired (k : nat) (l : list Particle) :
  Forall (fun p => life p <= age p + Z.of_nat k) l ->
  filter (fun p => age p + Z.of_nat k < life p) l = [].
Proof.
  induction l as [|p l IH]; intros Hall; [reflexivity|].
  apply Forall_cons in Hall as [Hp Hall].
  rewrite filter_cons, IH by exact Hall. case_decide; [lia | reflexivity].
Qed.

End Particles.

(** Each animation step of the win celebration advances every particle
    (age plus one, velocity plus gravity, position plus velocity) and
    drops those whose age has reached their life.  So after [k] steps the
    particles left are, in their order, exactly those with age + k below
    their life, each advanced [k] times; once [k] has reached every
    remaining life the list is empty and [step] asks for no further
    frame.  A particle of [makeBurst] starts at age 0 with a life between
    60 and 119 steps. *)
Theorem celebration_particles_expire (k : nat) (l : list Celebration.Particle) :
  Forall (fun p => 0 <= Celebration.age p < Celebration.life p) l ->
  Celebration.steps k l
  = Nat.iter k Celebration.advance
      <$> filter (fun p => Celebration.age p + Z.of_nat k
                           < Celebration.life p) l /\
  (Forall (fun p => Celebration.life p
                    <= Celebration.age p + Z.of_nat (S k)) l ->
   Celebration.step (Celebration.steps k l) = ([], false)) /\
  (forall cx cy cosA sinA rSpeed rLift rLife rSize rColor rGravity,
      unit_draw rLife ->
      let p := Celebration.newParticle cx cy cosA sinA rSpeed rLift rLife
                 rSize rColor rGravity in
      Celebration.age p = 0 /\
      60 <= Celebration.life p <= 119).
Proof.
  intros Hall. split; [now apply steps_filter|]. split.
  - intros Hend.
    assert (Celebration.steps (S k) l = []) as Hnil.
    { rewrite steps_filter by exact Hall.
      now rewrite filter_all_expired. }
    change (Celebration.steps (S k) l)
      with (fst (Celebration.step (Celebration.steps k l))) in Hnil.
    unfold Celebration.step in *. cbn [fst] in Hnil. now rewrite Hnil.
  - intros. now apply newParticle_life.
Qed.

Lemma celebration_particles_expire_witness :
  Celebration.steps 2
    [Celebration.mkParticle 0 0 1 0 3 0 1 "#ffd166" (6 # 100)]
  = Nat.iter 2 Celebration.advance
      <$> [Celebration.mkParticle 0 0 1 0 3 0 1 "#ffd166" (6 # 100)].
Proof.
  refine (proj1 (celebration_particles_expire 2
                   [Celebration.mkParticle 0 0 1 0 3 0 1 "#ffd166" (6 # 100)]
                   _)).
  apply Forall_singleton. cbn. lia.
Defined.
